(** * ChainFlow AI Sheets: the chain executor and its generation adapters

    A shallow embedding of the spreadsheet logic of [App] (cell updates,
    [executeGeneration], the cell and column/row handlers) and of
    [services/llmService.ts] ([generateLocal], [generateGemini],
    [generateContent]), followed by the properties of the specification.

    Conventions.
    - A JavaScript string is its sequence of UTF-16 code units.
    - [undefined] is [None]; an optional property is an [option].
    - React state ([headers], [rows], [settings]) is threaded explicitly.
      A [setRows(prev => f prev)] is the application of [f] to the store:
      React applies queued functional updates in the order they were queued.
    - An [async] function is split at its [await]: the part that runs
      synchronously, and the continuation that runs when the awaited
      promise settles. *)

From Stdlib Require Import NArith ZArith String Ascii PrimFloat.
From stdpp Require Import base tactics decidable option numbers list.

Open Scope list_scope.

(** ** JavaScript strings *)

Abbreviation jsstring := (list N).

(** A literal of the source text, as code units. *)
Definition lit (s : string) : jsstring :=
  (fun a => N_of_ascii a) <$> list_ascii_of_string s.

(** ECMAScript [WhiteSpace] and [LineTerminator] code points, the ones
    [String.prototype.trim] strips. *)
Definition whiteSpaceCodes : list N :=
  [0x0009; 0x000A; 0x000B; 0x000C; 0x000D; 0x0020; 0x00A0; 0x1680;
   0x2028; 0x2029; 0x202F; 0x205F; 0x3000; 0xFEFF]%N.

Definition isWhiteSpace (c : N) : bool :=
  existsb (N.eqb c) whiteSpaceCodes || ((0x2000 <=? c)%N && (c <=? 0x200A)%N).

Fixpoint trimStart (s : jsstring) : jsstring :=
  match s with
  | c :: s' => if isWhiteSpace c then trimStart s' else s
  | [] => []
  end.

Definition trimEnd (s : jsstring) : jsstring := reverse (trimStart (reverse s)).

Definition trim (s : jsstring) : jsstring := trimEnd (trimStart s).

(** Truthiness of a string: every string but the empty one. *)
Definition truthy (s : jsstring) : bool :=
  match s with [] => false | _ => true end.

(** [x || d] where [x] is a string or [undefined]. *)
Definition orElse (x : option jsstring) (d : jsstring) : jsstring :=
  match x with
  | Some s => if truthy s then s else d
  | None => d
  end.

(** Decimal digits of a non-negative integer, as a template literal
    [`${n}`] renders it. *)
Definition digit (d : N) : N := (48 + d)%N.

Fixpoint decimal_fuel (fuel : nat) (n : N) (acc : jsstring) : jsstring :=
  match fuel with
  | O => acc
  | S fuel' =>
      let acc' := digit (n mod 10) :: acc in
      if (n <? 10)%N then acc' else decimal_fuel fuel' (n / 10) acc'
  end.

Definition decimal (n : N) : jsstring := decimal_fuel (S (N.to_nat (N.log2 n))) n [].

(** ** Data model ([types.ts], as the code uses it) *)

Inductive CellStatus := IDLE | LOADING | SUCCESS | ERROR.

Record CellData := {
  cell_id : jsstring;
  value : jsstring;
  status : CellStatus;
  errorMessage : option jsstring
}.

Record ColumnHeader := {
  col_id : jsstring;
  label : jsstring;
  systemPrompt : jsstring;
  sourceColumnId : option jsstring;
  isInput : bool
}.

Record RowData := {
  row_id : jsstring;
  cells : list CellData
}.

Inductive ProviderType := GEMINI | LOCAL.

Record AppSettings := {
  provider : ProviderType;
  localBaseUrl : jsstring;
  localModelName : jsstring;
  geminiModelName : jsstring
}.

#[global] Instance CellStatus_eq_dec : EqDecision CellStatus.
Proof. solve_decision. Defined.
#[global] Instance CellData_eq_dec : EqDecision CellData.
Proof. solve_decision. Defined.
#[global] Instance ColumnHeader_eq_dec : EqDecision ColumnHeader.
Proof. solve_decision. Defined.
#[global] Instance RowData_eq_dec : EqDecision RowData.
Proof. solve_decision. Defined.

(** [Partial<CellData>]: the keys an update object carries.  A key that is
    present with the value [undefined] ([errorMessage: undefined]) is
    [Some None]. *)
Record CellUpdates := {
  u_id : option jsstring;
  u_value : option jsstring;
  u_status : option CellStatus;
  u_errorMessage : option (option jsstring)
}.

(** [{ ...cell, ...updates }] *)
Definition spread (updates : CellUpdates) (cell : CellData) : CellData :=
  {| cell_id := default (cell_id cell) (u_id updates);
     value := default (value cell) (u_value updates);
     status := default (status cell) (u_status updates);
     errorMessage := default (errorMessage cell) (u_errorMessage updates) |}.

(** The function [updateCell] hands to [setRows]. *)
Definition updateCell (rowId : jsstring) (colIndex : nat) (updates : CellUpdates)
    (prevRows : list RowData) : list RowData :=
  (fun row =>
     if decide (row_id row ≠ rowId) then row
     else {| row_id := row_id row;
             cells := alter (spread updates) colIndex (cells row) |})
  <$> prevRows.

(** ** Application state and asynchronous activations *)

(** What the callbacks of one render close over. *)
Record Closure := {
  headers : list ColumnHeader;
  rows : list RowData;
  settings : AppSettings
}.

(** One call of [generateContent(systemPrompt, userPrompt, settings)]. *)
Record AdapterCall := {
  call_systemPrompt : jsstring;
  call_userPrompt : jsstring;
  call_settings : AppSettings
}.

(** How an [async] function's promise settles.  A rejection is kept as the
    [message] property of the thrown value, which is all that
    [catch (error: any)] reads of it; [None] is a thrown value without one. *)
Inductive Completion (A : Type) :=
  | Resolved (result : A)
  | Rejected (message : option jsstring).
Arguments Resolved {A} result.
Arguments Rejected {A} message.

(** The promise of [generateContent], as [executeGeneration] is typed to
    receive it ([Promise<string>]). *)
Abbreviation Settled := (Completion jsstring).

(** An activation of [executeGeneration] suspended at
    [await generateContent(...)], with the locals its continuation reads. *)
Record Activation := {
  a_env : Closure;
  a_rowId : jsstring;
  a_targetColIndex : nat;
  a_targetHeader : ColumnHeader;
  a_sourceValue : jsstring
}.

Definition call_of (a : Activation) : AdapterCall :=
  {| call_systemPrompt := systemPrompt (a_targetHeader a);
     call_userPrompt := a_sourceValue a;
     call_settings := settings (a_env a) |}.

(** The React state of [App], the adapter calls issued so far (oldest
    first), and the activations whose adapter call has not settled yet. *)
Record World := {
  st_headers : list ColumnHeader;
  st_rows : list RowData;
  st_settings : AppSettings;
  calls : list AdapterCall;
  inflight : list Activation
}.

Definition render (w : World) : Closure :=
  {| headers := st_headers w; rows := st_rows w; settings := st_settings w |}.

Definition setRows (f : list RowData → list RowData) (w : World) : World :=
  {| st_headers := st_headers w; st_rows := f (st_rows w);
     st_settings := st_settings w; calls := calls w; inflight := inflight w |}.

Definition setHeaders (f : list ColumnHeader → list ColumnHeader) (w : World) : World :=
  {| st_headers := f (st_headers w); st_rows := st_rows w;
     st_settings := st_settings w; calls := calls w; inflight := inflight w |}.

Definition setInflight (f : list Activation → list Activation) (w : World) : World :=
  {| st_headers := st_headers w; st_rows := st_rows w;
     st_settings := st_settings w; calls := calls w; inflight := f (inflight w) |}.

(** Calling [generateContent] and suspending on its promise. *)
Definition await_generateContent (a : Activation) (w : World) : World :=
  {| st_headers := st_headers w; st_rows := st_rows w;
     st_settings := st_settings w;
     calls := calls w ++ [call_of a];
     inflight := inflight w ++ [a] |}.

(** ** [executeGeneration] *)

(** [headers.findIndex(h => h.id === sourceColId)], [None] for [-1]. *)
Definition findIndex_id (sourceColId : option jsstring) (hs : list ColumnHeader) : option nat :=
  fst <$> list_find (λ h, Some (col_id h) = sourceColId) hs.

(** [rows.find(r => r.id === rowId)] *)
Definition find_row (rowId : jsstring) (rs : list RowData) : option RowData :=
  snd <$> list_find (λ r, row_id r = rowId) rs.

(** [headers.map((h, index) => ({ ...h, index })).filter(h => h.sourceColumnId === ofId)] *)
Definition dependents (hs : list ColumnHeader) (ofId : jsstring) : list (nat * ColumnHeader) :=
  filter (λ dep, sourceColumnId dep.2 = Some ofId) (imap (λ index h, (index, h)) hs).

(** Step 1 of [executeGeneration], "Determine Source Value". *)
Inductive SourceLookup :=
  | SourceValue (sourceValue : jsstring)
  | SourceColumnInvalid
  | RowMissing.

Definition determineSource (env : Closure) (rowId : jsstring)
    (targetHeader : ColumnHeader) (directInputVal : option jsstring) : SourceLookup :=
  match directInputVal with
  | Some sourceValue => SourceValue sourceValue
  | None =>
      match findIndex_id (sourceColumnId targetHeader) (headers env) with
      | None => SourceColumnInvalid
      | Some sourceColIndex =>
          match find_row rowId (rows env) with
          | None => RowMissing
          | Some row => SourceValue (orElse (value <$> cells row !! sourceColIndex) [])
          end
      end
  end.

Definition loadingUpdate : CellUpdates :=
  {| u_id := None; u_value := None; u_status := Some LOADING; u_errorMessage := Some None |}.

Definition successUpdate (result : jsstring) : CellUpdates :=
  {| u_id := None; u_value := Some result; u_status := Some SUCCESS; u_errorMessage := None |}.

Definition errorUpdate (message : option jsstring) : CellUpdates :=
  {| u_id := None; u_value := None; u_status := Some ERROR; u_errorMessage := Some message |}.

Definition invalidSourceMessage : jsstring := lit "Source column configuration invalid.".

(** [executeGeneration] up to its [await]: everything it does before it
    returns its promise to the caller. *)
Definition executeGeneration (env : Closure) (rowId : jsstring) (targetColIndex : nat)
    (directInputVal : option jsstring) (w : World) : World :=
  match headers env !! targetColIndex with
  | None => w
  | Some targetHeader =>
      if isInput targetHeader then w
      else
        match determineSource env rowId targetHeader directInputVal with
        | SourceColumnInvalid =>
            setRows (updateCell rowId targetColIndex (errorUpdate (Some invalidSourceMessage))) w
        | RowMissing => w
        | SourceValue sourceValue =>
            if negb (truthy (trim sourceValue)) then w
            else
              await_generateContent
                {| a_env := env; a_rowId := rowId; a_targetColIndex := targetColIndex;
                   a_targetHeader := targetHeader; a_sourceValue := sourceValue |}
                (setRows (updateCell rowId targetColIndex loadingUpdate) w)
        end
  end.

(** The rest of [executeGeneration], run when the adapter's promise
    settles: the end of the [try] block, or the [catch] block.  The calls
    made by [dependents.forEach] are not awaited: each runs up to its own
    [await] and hands back a promise that [forEach] drops. *)
Definition resume (a : Activation) (o : Settled) (w : World) : World :=
  match o with
  | Resolved result =>
      foldl (λ w' dep, executeGeneration (a_env a) (a_rowId a) dep.1 (Some result) w')
        (setRows (updateCell (a_rowId a) (a_targetColIndex a) (successUpdate result)) w)
        (dependents (headers (a_env a)) (col_id (a_targetHeader a)))
  | Rejected message =>
      setRows (updateCell (a_rowId a) (a_targetColIndex a) (errorUpdate message)) w
  end.

(** The event loop delivers the settlement of the [k]-th pending call. *)
Definition settle (k : nat) (o : Settled) (w : World) : World :=
  match inflight w !! k with
  | None => w
  | Some a => resume a o (setInflight (delete k) w)
  end.

(** ** Cell handlers *)

Definition handleCellChange (rowId : jsstring) (colIndex : nat) (newValue : jsstring)
    (w : World) : World :=
  setRows (updateCell rowId colIndex
             {| u_id := None; u_value := Some newValue; u_status := Some IDLE;
                u_errorMessage := None |}) w.

(** [headers[colIndex]] is read without a guard: with no header at
    [colIndex] the handler throws before it changes anything. *)
Definition handleCellBlur (rowId : jsstring) (colIndex : nat) (value : jsstring)
    (w : World) : World :=
  match st_headers w !! colIndex with
  | None => w
  | Some currentHeader =>
      foldl (λ w' dep, executeGeneration (render w) rowId dep.1 (Some value) w')
        w (dependents (st_headers w) (col_id currentHeader))
  end.

Definition regenerateCell (rowId : jsstring) (colIndex : nat) (w : World) : World :=
  executeGeneration (render w) rowId colIndex None w.

(** ** Column and row operations *)

Definition idleCell (id : jsstring) : CellData :=
  {| cell_id := id; value := []; status := IDLE; errorMessage := None |}.

(** [xs.filter((_, i) => i !== index)] *)
Definition filter_index {A} (index : nat) (xs : list A) : list A :=
  snd <$> filter (λ p, p.1 ≠ index) (imap (λ i x, (i, x)) xs).

(** [now] and [nowCell i] are the readings of [Date.now()] for the row id
    and for the id of the [i]-th cell. *)
Definition addRow (now : N) (nowCell : nat → N) (w : World) : World :=
  setRows (λ prev,
    prev ++ [ {| row_id := lit "row-" ++ decimal now;
                 cells := imap (λ i _,
                   idleCell (lit "cell-" ++ decimal (nowCell i) ++ lit "-"
                             ++ decimal (N.of_nat i))) (st_headers w) |} ]) w.

Definition removeRow (rowId : jsstring) (w : World) : World :=
  setRows (filter (λ r, row_id r ≠ rowId)) w.

Definition addColumn (now : N) (w : World) : World :=
  let newId := lit "col-" ++ decimal now in
  let defaultSourceId := col_id <$> st_headers w !! (length (st_headers w) - 1) in
  let w1 :=
    setHeaders (λ prev,
      prev ++ [ {| col_id := newId;
                   label := lit "Step " ++ decimal (N.of_nat (length prev));
                   systemPrompt := lit "New system instruction...";
                   sourceColumnId := defaultSourceId;
                   isInput := false |} ]) w in
  setRows (λ prev, (λ row,
    {| row_id := row_id row;
       cells := cells row ++
         [ idleCell (lit "cell-" ++ row_id row ++ lit "-"
                     ++ decimal (N.of_nat (length (st_headers w)))) ] |}) <$> prev) w1.

Definition removeColumn (index : nat) (w : World) : World :=
  if decide (index = 0) then w
  else
    setRows (λ prev, (λ row,
      {| row_id := row_id row; cells := filter_index index (cells row) |}) <$> prev)
      (setHeaders (filter_index index) w).

(** The state [App] starts from: the three default columns and, once the
    initialisation effect has run, [DEFAULT_ROWS] empty rows; [now i] is
    the reading of [Date.now()] for the id of row [i]. *)
Definition DEFAULT_ROWS : nat := 3.

Definition initialHeaders : list ColumnHeader :=
  [ {| col_id := lit "col-0"; label := lit "User Input"; systemPrompt := [];
       sourceColumnId := None; isInput := true |};
    {| col_id := lit "col-1"; label := lit "Step 1 Output";
       systemPrompt := lit "Summarize the input in one sentence.";
       sourceColumnId := Some (lit "col-0"); isInput := false |};
    {| col_id := lit "col-2"; label := lit "Step 2 Output";
       systemPrompt := lit "Translate the summary to French.";
       sourceColumnId := Some (lit "col-1"); isInput := false |} ].

Definition initialSettings : AppSettings :=
  {| provider := GEMINI; localBaseUrl := lit "http://localhost:11434";
     localModelName := lit "llama3"; geminiModelName := lit "gemini-2.5-flash" |}.

Definition initRows (now : nat → N) : list RowData :=
  (λ i, {| row_id := lit "row-" ++ decimal (now i) ++ lit "-" ++ decimal (N.of_nat i);
           cells := (λ j, idleCell (lit "cell-" ++ decimal (N.of_nat i) ++ lit "-"
                                    ++ decimal (N.of_nat j))) <$> seq 0 3 |})
  <$> seq 0 DEFAULT_ROWS.

Definition initialWorld (now : nat → N) : World :=
  {| st_headers := initialHeaders; st_rows := initRows now;
     st_settings := initialSettings; calls := []; inflight := [] |}.

(** The invariant of the data model: every row has one cell per column. *)
Definition lockstep (w : World) : Prop :=
  Forall (λ row, length (cells row) = length (st_headers w)) (st_rows w).

(** ** The generation adapters ([services/llmService.ts]) *)

(** Values produced by [response.json()]. *)
#[warnings="-register-all"]
Inductive JSON :=
  | JNull
  | JBool (b : bool)
  | JNumber (x : float)
  | JString (s : jsstring)
  | JArray (items : list JSON)
  | JObject (fields : list (jsstring * JSON)).

(** Own property of a parsed object. *)
Fixpoint own (key : jsstring) (fields : list (jsstring * JSON)) : option JSON :=
  match fields with
  | [] => None
  | (k, v) :: rest => if decide (k = key) then Some v else own key rest
  end.

(** [v.name] for a name that no prototype defines ([choices], [message],
    [content]) and a [v] that is not [null]. *)
Definition prop (name : jsstring) (v : JSON) : option JSON :=
  match v with
  | JObject fields => own name fields
  | _ => None
  end.

(** [v[0]] for a [v] that is not [null]. *)
Definition index0 (v : JSON) : option JSON :=
  match v with
  | JArray items => items !! 0
  | JString s => (λ c, JString [c]) <$> s !! 0
  | JObject fields => own (lit "0") fields
  | _ => None
  end.

(** [x?.f]: [undefined] when [x] is [undefined] or [null]. *)
Definition optChain (x : option JSON) (f : JSON → option JSON) : option JSON :=
  match x with
  | None | Some JNull => None
  | Some v => f v
  end.

(** Truthiness of a value. *)
Definition truthyJSON (v : JSON) : bool :=
  match v with
  | JNull => false
  | JBool b => b
  | JNumber x => negb (PrimFloat.eqb x 0 || PrimFloat.is_nan x)
  | JString s => truthy s
  | JArray _ | JObject _ => true
  end.

(** [x || ""] *)
Definition orEmptyString (x : option JSON) : JSON :=
  match x with
  | Some v => if truthyJSON v then v else JString []
  | None => JString []
  end.

(** [fetch]'s request. [req_body] is the value given to [JSON.stringify]. *)
Record Request := {
  url : jsstring;
  method : jsstring;
  req_headers : list (jsstring * jsstring);
  req_body : JSON
}.

(** [fetch]'s response: its status and what [await response.text()] and
    [await response.json()] complete with. *)
Record Response := {
  resp_status : N;
  resp_text : Completion jsstring;
  resp_json : Completion JSON
}.

(** [response.ok], by the Fetch standard: the status is in 200..299. *)
Definition ok (response : Response) : bool :=
  (200 <=? resp_status response)%N && (resp_status response <=? 299)%N.

(** The request [ai.models.generateContent] receives; [apiKey] is
    [process.env.API_KEY]. *)
Record GeminiRequest := {
  apiKey : option jsstring;
  model : jsstring;
  contents : jsstring;
  systemInstruction : jsstring
}.

Section Adapters.

(** The platform: the network behind [fetch]; the hosted SDK, from the
    construction of the client to the reading of [response.text] (a
    string or [undefined]), all of it inside the [try] block; the API key
    of the environment; and the engine's message for reading a property
    of [null].  The [console.error] calls of the [catch] blocks write a
    log line and are left out. *)
Variable fetch : Request → Completion Response.
Variable sdk_generateContent : GeminiRequest → Completion (option jsstring).
Variable API_KEY : option jsstring.
Variable nullReadMessage : option jsstring.

Definition localRequest (systemPrompt userPrompt : jsstring) (settings : AppSettings)
    : Request :=
  {| url := localBaseUrl settings ++ lit "/v1/chat/completions";
     method := lit "POST";
     req_headers := [ (lit "Content-Type", lit "application/json") ];
     req_body :=
       JObject
         [ (lit "model", JString (localModelName settings));
           (lit "messages",
            JArray
              [ JObject [ (lit "role", JString (lit "system"));
                          (lit "content", JString systemPrompt) ];
                JObject [ (lit "role", JString (lit "user"));
                          (lit "content", JString userPrompt) ] ]);
           (lit "stream", JBool false) ] |}.

(** [data.choices?.[0]?.message?.content || ""]; reading [choices] of
    [null] throws. *)
Definition firstChoiceContent (data : JSON) : Completion JSON :=
  match data with
  | JNull => Rejected nullReadMessage
  | _ =>
      Resolved (orEmptyString
        (optChain (optChain (optChain (prop (lit "choices") data) index0)
                            (prop (lit "message")))
                  (prop (lit "content"))))
  end.

(** The [try] block of [generateLocal]. *)
Definition generateLocal_try (systemPrompt userPrompt : jsstring) (settings : AppSettings)
    : Completion JSON :=
  match fetch (localRequest systemPrompt userPrompt settings) with
  | Rejected e => Rejected e
  | Resolved response =>
      if negb (ok response) then
        match resp_text response with
        | Rejected e => Rejected e
        | Resolved errText =>
            Rejected (Some (lit "Local LLM Error: " ++ decimal (resp_status response)
                         ++ lit " - " ++ errText))
        end
      else
        match resp_json response with
        | Rejected e => Rejected e
        | Resolved data => firstChoiceContent data
        end
  end.

(** [catch (error) { throw new Error(error.message || fallback) }] *)
Definition rethrow {A} (fallback : jsstring) (c : Completion A) : Completion A :=
  match c with
  | Resolved a => Resolved a
  | Rejected message => Rejected (Some (orElse message fallback))
  end.

Definition generateLocal (systemPrompt userPrompt : jsstring) (settings : AppSettings)
    : Completion JSON :=
  rethrow (lit "Failed to connect to Local LLM")
    (generateLocal_try systemPrompt userPrompt settings).

Definition geminiRequest (systemPrompt userPrompt : jsstring) (settings : AppSettings)
    : GeminiRequest :=
  {| apiKey := API_KEY;
     model := orElse (Some (geminiModelName settings)) (lit "gemini-2.5-flash");
     contents := userPrompt;
     systemInstruction := systemPrompt |}.

(** The [try] block of [generateGemini]. *)
Definition generateGemini_try (systemPrompt userPrompt : jsstring) (settings : AppSettings)
    : Completion jsstring :=
  match sdk_generateContent (geminiRequest systemPrompt userPrompt settings) with
  | Rejected e => Rejected e
  | Resolved text =>
      match text with
      | Some t => if truthy t then Resolved t
                  else Rejected (Some (lit "Empty response from Gemini"))
      | None => Rejected (Some (lit "Empty response from Gemini"))
      end
  end.

Definition generateGemini (systemPrompt userPrompt : jsstring) (settings : AppSettings)
    : Completion jsstring :=
  rethrow (lit "Failed to generate with Gemini")
    (generateGemini_try systemPrompt userPrompt settings).

Definition generateContent (systemPrompt userPrompt : jsstring) (settings : AppSettings)
    : Completion JSON :=
  match provider settings with
  | LOCAL => generateLocal systemPrompt userPrompt settings
  | GEMINI =>
      match generateGemini systemPrompt userPrompt settings with
      | Resolved text => Resolved (JString text)
      | Rejected e => Rejected e
      end
  end.

End Adapters.

(** ** Vocabulary of the properties, and example states *)

(** [after] is [before] with [f] applied to the cell at column [col] of
    every row whose id is [rowId]; rows, their ids and their order, and
    every other cell, are as they were. *)
Definition touches_only (rowId : jsstring) (col : nat) (f : CellData → CellData)
    (before after : list RowData) : Prop :=
  length after = length before ∧
  ∀ i row, before !! i = Some row →
    ∃ row', after !! i = Some row' ∧
      row_id row' = row_id row ∧
      length (cells row') = length (cells row) ∧
      ∀ j cell, cells row !! j = Some cell →
        cells row' !! j =
          Some (if decide (row_id row = rowId ∧ j = col) then f cell else cell).

(** The activations a propagation pass over the dependents of column
    [ofId] suspends: one per dependent that is not an entry column, in
    header order. *)
Definition issuedFor (env : Closure) (rowId ofId text : jsstring) : list Activation :=
  (λ dep, {| a_env := env; a_rowId := rowId; a_targetColIndex := dep.1;
             a_targetHeader := dep.2; a_sourceValue := text |})
  <$> filter (λ dep, isInput dep.2 = false) (dependents (headers env) ofId).

(** At most one adapter call is pending. *)
Definition sequential (w : World) : Prop := length (inflight w) ≤ 1.

(** An entry column with two dependents, and one row. *)
Definition fanHeaders : list ColumnHeader :=
  [ {| col_id := lit "col-0"; label := lit "User Input"; systemPrompt := [];
       sourceColumnId := None; isInput := true |};
    {| col_id := lit "col-1"; label := lit "Summary";
       systemPrompt := lit "Summarize."; sourceColumnId := Some (lit "col-0");
       isInput := false |};
    {| col_id := lit "col-2"; label := lit "Keywords";
       systemPrompt := lit "List keywords."; sourceColumnId := Some (lit "col-0");
       isInput := false |} ].

Definition fanWorld : World :=
  {| st_headers := fanHeaders;
     st_rows := [ {| row_id := lit "row-1";
                     cells := [ idleCell (lit "cell-0-0"); idleCell (lit "cell-0-1");
                                idleCell (lit "cell-0-2") ] |} ];
     st_settings := initialSettings; calls := []; inflight := [] |}.

Definition isIdle (cell : CellData) : Prop :=
  value cell = [] ∧ status cell = IDLE ∧ errorMessage cell = None.

(** A 200 response whose first choice has the empty string as content. *)
Definition quoted (s : string) : jsstring := [34%N] ++ lit s ++ [34%N].

Definition emptyContentResponse : Response :=
  {| resp_status := 200;
     resp_text := Resolved (lit "{" ++ quoted "choices" ++ lit ":[{" ++ quoted "message"
                            ++ lit ":{" ++ quoted "content" ++ lit ":" ++ quoted ""
                            ++ lit "}}]}");
     resp_json := Resolved (JObject
       [ (lit "choices",
          JArray [ JObject [ (lit "message",
                              JObject [ (lit "content", JString []) ]) ] ]) ]) |}.

Definition localSettings : AppSettings :=
  {| provider := LOCAL; localBaseUrl := lit "http://localhost:11434";
     localModelName := lit "llama3"; geminiModelName := lit "gemini-2.5-flash" |}.

(** The number a string of decimal digits denotes, read left to right
    from the value [v] of the digits already read. *)
Definition digits_value_from (v : N) (s : jsstring) : N :=
  foldl (λ v c, 10 * v + (c - 48))%N v s.

(** The default sheet, initialised at some time, and its first row. *)
Definition sheet : World := initialWorld (λ _, 1700000000000%N).

Definition row0 : jsstring := lit "row-1700000000000-0".

(** The activation that generates column 1 of the first row of the default
    sheet from the text ["Long text..."]. *)
Definition summarizing : Activation :=
  {| a_env := render sheet; a_rowId := row0; a_targetColIndex := 1;
     a_targetHeader :=
       {| col_id := lit "col-1"; label := lit "Step 1 Output";
          systemPrompt := lit "Summarize the input in one sentence.";
          sourceColumnId := Some (lit "col-0"); isInput := false |};
     a_sourceValue := lit "Long text..." |}.

(** A sheet whose second column names a source column that was removed. *)
Definition translateHeader : ColumnHeader :=
  {| col_id := lit "col-2"; label := lit "Step 2 Output";
     systemPrompt := lit "Translate the summary to French.";
     sourceColumnId := Some (lit "col-1"); isInput := false |}.

Definition danglingWorld : World :=
  {| st_headers :=
       [ {| col_id := lit "col-0"; label := lit "User Input"; systemPrompt := [];
            sourceColumnId := None; isInput := true |};
         translateHeader ];
     st_rows := [ {| row_id := lit "row-1";
                     cells := [ idleCell (lit "cell-0-0"); idleCell (lit "cell-0-2") ] |} ];
     st_settings := initialSettings; calls := []; inflight := [] |}.

(** Responses of a local server: an unknown model, and a completion. *)
Definition notFoundResponse : Response :=
  {| resp_status := 404;
     resp_text := Resolved (lit "model not found");
     resp_json := Rejected (Some (lit "Unexpected token 'm'")) |}.

Definition bonjourResponse : Response :=
  {| resp_status := 200;
     resp_text := Resolved (lit "{" ++ quoted "choices" ++ lit ":[{" ++ quoted "message"
                            ++ lit ":{" ++ quoted "content" ++ lit ":" ++ quoted "Bonjour"
                            ++ lit "}}]}");
     resp_json := Resolved (JObject
       [ (lit "choices",
          JArray [ JObject [ (lit "message",
                              JObject [ (lit "content", JString (lit "Bonjour")) ]) ] ]) ]) |}.

(** ** Header edits, the settings modal and the events of the page *)

(** [keyof ColumnHeader] *)
Inductive HeaderKey := K_id | K_label | K_systemPrompt | K_sourceColumnId | K_isInput.

(** [{ ...header, [field]: value }] for a string [value].  With the key
    [isInput] the result holds a string where a boolean belongs and is no
    [ColumnHeader]: [None]. *)
Definition withField (field : HeaderKey) (value : jsstring) (header : ColumnHeader)
    : option ColumnHeader :=
  match field with
  | K_id =>
      Some {| col_id := value; label := label header; systemPrompt := systemPrompt header;
              sourceColumnId := sourceColumnId header; isInput := isInput header |}
  | K_label =>
      Some {| col_id := col_id header; label := value; systemPrompt := systemPrompt header;
              sourceColumnId := sourceColumnId header; isInput := isInput header |}
  | K_systemPrompt =>
      Some {| col_id := col_id header; label := label header; systemPrompt := value;
              sourceColumnId := sourceColumnId header; isInput := isInput header |}
  | K_sourceColumnId =>
      Some {| col_id := col_id header; label := label header;
              systemPrompt := systemPrompt header;
              sourceColumnId := Some value; isInput := isInput header |}
  | K_isInput => None
  end.

(** [handleHeaderChange].  With no header at [index] the assignment
    [newHeaders[index] = { [field]: value }] stores an object that has
    only that one property: the header list then leaves the data model,
    and the result is [None]. *)
Definition handleHeaderChange (index : nat) (field : HeaderKey) (value : jsstring)
    (w : World) : option World :=
  match st_headers w !! index with
  | None => None
  | Some header =>
      match withField field value header with
      | None => None
      | Some header' => Some (setHeaders (λ prev, <[index := header']> prev) w)
      end
  end.

Definition setSettings (s : AppSettings) (w : World) : World :=
  {| st_headers := st_headers w; st_rows := st_rows w; st_settings := s;
     calls := calls w; inflight := inflight w |}.

(** The key and value of a call of [handleChange] in [SettingsModal]. *)
Inductive SettingsEdit :=
  | provider_is (p : ProviderType)
  | localBaseUrl_is (s : jsstring)
  | localModelName_is (s : jsstring)
  | geminiModelName_is (s : jsstring).

(** [{ ...prev, [key]: value }] *)
Definition handleChange (e : SettingsEdit) (prev : AppSettings) : AppSettings :=
  match e with
  | provider_is p =>
      {| provider := p; localBaseUrl := localBaseUrl prev;
         localModelName := localModelName prev; geminiModelName := geminiModelName prev |}
  | localBaseUrl_is s =>
      {| provider := provider prev; localBaseUrl := s;
         localModelName := localModelName prev; geminiModelName := geminiModelName prev |}
  | localModelName_is s =>
      {| provider := provider prev; localBaseUrl := localBaseUrl prev;
         localModelName := s; geminiModelName := geminiModelName prev |}
  | geminiModelName_is s =>
      {| provider := provider prev; localBaseUrl := localBaseUrl prev;
         localModelName := localModelName prev; geminiModelName := s |}
  end.

(** The page: the state of [App] with its pending calls, whether the
    modal is open, and the draft the modal edits (its [localSettings]). *)
Record Page := {
  world : World;
  isSettingsOpen : bool;
  modal_localSettings : AppSettings
}.

(** The effect of [SettingsModal], run after a render in which [settings]
    or [isOpen] has changed: the draft is reset to the settings of [App]. *)
Definition syncDraft (w : World) (isOpen : bool) : Page :=
  {| world := w; isSettingsOpen := isOpen; modal_localSettings := st_settings w |}.

Definition onWorld (f : World → World) (p : Page) : Page :=
  {| world := f (world p); isSettingsOpen := isSettingsOpen p;
     modal_localSettings := modal_localSettings p |}.

(** [handleSave]: [onSave(localSettings)], then [onClose()]. *)
Definition handleSave (p : Page) : Page :=
  syncDraft (setSettings (modal_localSettings p) (world p)) false.

(** What the user and the event loop can do to the page. *)
Inductive Event :=
  | TypeInCell (rowId : jsstring) (colIndex : nat) (text : jsstring)
  | LeaveCell (rowId : jsstring) (colIndex : nat) (text : jsstring)
  | ClickRegenerate (rowId : jsstring) (colIndex : nat)
  | ClickAddRow (now : N) (nowCell : nat → N)
  | ClickRemoveRow (rowId : jsstring)
  | ClickAddColumn (now : N)
  | ClickRemoveColumn (index : nat)
  | EditHeader (index : nat) (field : HeaderKey) (value : jsstring)
  | CallSettles (k : nat) (o : Settled)
  | OpenSettings
  | CancelSettings
  | EditSettings (e : SettingsEdit)
  | ClickSave.

(** The handler each event runs.  The modal's controls exist while it is
    open, and setting [isSettingsOpen] to the value it has starts no
    render and no effect; a header edit that would leave the data model
    is not an event the page offers, and changes nothing here. *)
Definition react (e : Event) (p : Page) : Page :=
  match e with
  | TypeInCell rowId colIndex text => onWorld (handleCellChange rowId colIndex text) p
  | LeaveCell rowId colIndex text => onWorld (handleCellBlur rowId colIndex text) p
  | ClickRegenerate rowId colIndex => onWorld (regenerateCell rowId colIndex) p
  | ClickAddRow now nowCell => onWorld (addRow now nowCell) p
  | ClickRemoveRow rowId => onWorld (removeRow rowId) p
  | ClickAddColumn now => onWorld (addColumn now) p
  | ClickRemoveColumn index => onWorld (removeColumn index) p
  | EditHeader index field value =>
      onWorld (λ w, default w (handleHeaderChange index field value w)) p
  | CallSettles k o => onWorld (settle k o) p
  | OpenSettings => if isSettingsOpen p then p else syncDraft (world p) true
  | CancelSettings => if isSettingsOpen p then syncDraft (world p) false else p
  | EditSettings e =>
      if isSettingsOpen p then
        {| world := world p; isSettingsOpen := true;
           modal_localSettings := handleChange e (modal_localSettings p) |}
      else p
  | ClickSave => if isSettingsOpen p then handleSave p else p
  end.

Definition run (es : list Event) (p : Page) : Page := foldl (λ p' e, react e p') p es.

(** The page once the initialisation effect has run. *)
Definition initialPage (now : nat → N) : Page := syncDraft (initialWorld now) false.

(** ** Vocabulary of the further properties *)

(** [after] has the rows of [before], with the same ids and the same
    number of cells, in the same order, and [R rowId j cell cell'] relates
    every cell (at column [j] of a row named [rowId]) to the cell that
    took its place. *)
Definition cellwise (R : jsstring → nat → CellData → CellData → Prop)
    (before after : list RowData) : Prop :=
  length after = length before ∧
  ∀ i row, before !! i = Some row →
    ∃ row', after !! i = Some row' ∧
      row_id row' = row_id row ∧
      length (cells row') = length (cells row) ∧
      ∀ j cell, cells row !! j = Some cell →
        ∃ cell', cells row' !! j = Some cell' ∧ R (row_id row) j cell cell'.

(** What a generation step may do to a cell: its id stays; the cell is
    untouched unless it is in a row named [rowId] at a column of
    [statusCols]; and its value stays unless its column is in
    [valueCols]. *)
Definition generation_frame (rowId : jsstring) (valueCols statusCols : nat → Prop)
    (id : jsstring) (j : nat) (cell cell' : CellData) : Prop :=
  cell_id cell' = cell_id cell
  ∧ (id ≠ rowId ∨ ¬ statusCols j → cell' = cell)
  ∧ (¬ valueCols j → value cell' = value cell).

(** The cell at column [j] of the [i]-th row. *)
Definition cell_at (i j : nat) (w : World) : option CellData :=
  st_rows w !! i ≫= λ row, cells row !! j.

(** The activations that the settlement [o] of the call of [a] suspends:
    they are read off [a] and [o] alone. *)
Definition spawned (a : Activation) (o : Settled) : list Activation :=
  match o with
  | Resolved result =>
      if truthy (trim result)
      then issuedFor (a_env a) (a_rowId a) (col_id (a_targetHeader a)) result
      else []
  | Rejected _ => []
  end.

(** The first header, and only the first, is the entry column. *)
Definition entry_first (hs : list ColumnHeader) : Prop :=
  ∃ h0 rest, hs = h0 :: rest ∧ isInput h0 = true ∧ Forall (λ h, isInput h = false) rest.

(** A pending activation as [executeGeneration] makes them: its target
    header is the header at its target index in its closure and is not an
    entry column, its closure has the entry column first, and its input is
    not blank. *)
Definition well_issued (a : Activation) : Prop :=
  entry_first (headers (a_env a))
  ∧ headers (a_env a) !! a_targetColIndex a = Some (a_targetHeader a)
  ∧ isInput (a_targetHeader a) = false
  ∧ trim (a_sourceValue a) ≠ [].

(** The invariant of the page. *)
Definition sound (w : World) : Prop :=
  lockstep w
  ∧ entry_first (st_headers w)
  ∧ Forall well_issued (inflight w)
  ∧ Forall (λ c, trim (call_userPrompt c) ≠ []) (calls w).

(** The values of the entry column, row by row. *)
Definition entry_values (w : World) : list (jsstring * option jsstring) :=
  (λ row, (row_id row, value <$> cells row !! 0)) <$> st_rows w.

(** The events by which the user edits the entry column: typing in one
    of its cells, adding a row, removing a row. *)
Definition edits_entry_column (e : Event) : Prop :=
  match e with
  | TypeInCell _ 0 _ | ClickAddRow _ _ | ClickRemoveRow _ => True
  | _ => False
  end.

(** A set [loop] of column indices of the closure [env] in which every
    column has a dependent, not an entry column, that is in the set too:
    a cycle of the dependency graph, or columns that lead into one. *)
Definition feeds_itself (env : Closure) (loop : nat → Prop) : Prop :=
  ∀ i, loop i →
    ∃ hi j hj, headers env !! i = Some hi ∧ loop j ∧ headers env !! j = Some hj
               ∧ isInput hj = false ∧ sourceColumnId hj = Some (col_id hi).

(** The settlements of a schedule, in order: each names the position of
    the pending call it settles and the outcome. *)
Definition settleAll (sched : list (nat * Settled)) (w : World) : World :=
  foldl (λ w' ko, settle ko.1 ko.2 w') w sched.

(** Every settlement of the schedule settles a call that is pending. *)
Fixpoint effective (sched : list (nat * Settled)) (w : World) : Prop :=
  match sched with
  | [] => True
  | ko :: rest => is_Some (inflight w !! ko.1) ∧ effective rest (settle ko.1 ko.2 w)
  end.

(** Every header that names a column as its source sits to the right of
    that column. *)
Definition forward (hs : list ColumnHeader) : Prop :=
  ∀ i j hi hj, hs !! i = Some hi → hs !! j = Some hj →
    sourceColumnId hj = Some (col_id hi) → i < j.

Definition chain_ready (a : Activation) : Prop :=
  forward (headers (a_env a))
  ∧ headers (a_env a) !! a_targetColIndex a = Some (a_targetHeader a).

(** A bound on the calls a pending call can still cause, itself
    included: one for the last column, doubling with each column to the
    left. *)
Definition weight (a : Activation) : nat :=
  2 ^ (length (headers (a_env a)) - 1 - a_targetColIndex a).

Definition pending_weight (w : World) : nat := sum_list_with weight (inflight w).

(** Settling the oldest pending call with the answer [gen] gives for it,
    [fuel] times or until nothing is pending. *)
Fixpoint drain (gen : AdapterCall → Settled) (fuel : nat) (w : World) : World :=
  match fuel with
  | O => w
  | S fuel' =>
      match inflight w with
      | [] => w
      | a :: _ => drain gen fuel' (settle 0 (gen (call_of a)) w)
      end
  end.

(** The default sheet once ["Long text..."] is typed in its first entry
    cell, and once that cell is left; the call the commit issues. *)
Definition typed : World := handleCellChange row0 0 (lit "Long text...") sheet.

Definition committed : World := handleCellBlur row0 0 (lit "Long text...") typed.

Definition commitCall : Activation :=
  {| a_env := render typed; a_rowId := row0; a_targetColIndex := 1;
     a_targetHeader := a_targetHeader summarizing;
     a_sourceValue := lit "Long text..." |}.

(** A call for the last column of the default sheet. *)
Definition translating (rowId : jsstring) : Activation :=
  {| a_env := render sheet; a_rowId := rowId; a_targetColIndex := 2;
     a_targetHeader := translateHeader; a_sourceValue := lit "Short summary" |}.

(** A sheet whose two generated columns are each other's source, with a
    call pending for the first of them. *)
Definition loopHeaders : list ColumnHeader :=
  [ {| col_id := lit "col-0"; label := lit "User Input"; systemPrompt := [];
       sourceColumnId := None; isInput := true |};
    {| col_id := lit "col-1"; label := lit "Draft"; systemPrompt := lit "Improve.";
       sourceColumnId := Some (lit "col-2"); isInput := false |};
    {| col_id := lit "col-2"; label := lit "Review"; systemPrompt := lit "Criticise.";
       sourceColumnId := Some (lit "col-1"); isInput := false |} ].

Definition loopSheet : World :=
  {| st_headers := loopHeaders;
     st_rows := [ {| row_id := lit "row-1";
                     cells := [ idleCell (lit "cell-0-0"); idleCell (lit "cell-0-1");
                                idleCell (lit "cell-0-2") ] |} ];
     st_settings := initialSettings; calls := []; inflight := [] |}.

Definition loopWorld : World := regenerateCell (lit "row-1") 1
  (handleCellChange (lit "row-1") 2 (lit "A first draft") loopSheet).

(** * Properties *)

(** ** Strings *)

Lemma trimStart_nil_iff (s : jsstring) :
  trimStart s = [] ↔ Forall (λ c, isWhiteSpace c = true) s.
Proof.
  induction s as [|c s IH]; simpl.
  - split; [constructor | done].
  - destruct (isWhiteSpace c) eqn:Hc.
    + rewrite IH. split; [by constructor | by inversion 1].
    + split; [done | inversion 1; congruence].
Qed.

Lemma trimStart_whitespace (s : jsstring) :
  Forall (λ c, isWhiteSpace c = true) (trimStart s) → trimStart s = [].
Proof.
  induction s as [|c s IH]; simpl; [done |].
  destruct (isWhiteSpace c) eqn:Hc; [done |].
  inversion 1; congruence.
Qed.

(** [s.trim()] is empty exactly when [s] is empty or made of white space. *)
Lemma trim_nil_iff (s : jsstring) :
  trim s = [] ↔ Forall (λ c, isWhiteSpace c = true) s.
Proof.
  unfold trim, trimEnd. split.
  - intros H. apply trimStart_nil_iff, trimStart_whitespace.
    apply Forall_reverse.
    apply trimStart_nil_iff.
    apply (f_equal reverse) in H. by rewrite reverse_involutive in H.
  - intros H. apply trimStart_nil_iff in H. by rewrite H.
Qed.

Lemma truthy_false_iff (s : jsstring) : truthy s = false ↔ s = [].
Proof. by destruct s. Qed.

Lemma truthy_true_iff (s : jsstring) : truthy s = true ↔ s ≠ [].
Proof. by destruct s. Qed.

Lemma orElse_truthy (x : option jsstring) (d : jsstring) :
  d ≠ [] → orElse x d ≠ [].
Proof.
  intros Hd. destruct x as [[|c s]|]; simpl; done.
Qed.

Lemma decimal_fuel_value fuel n acc :
  (n < 2 ^ N.of_nat fuel)%N →
  digits_value_from 0 (decimal_fuel fuel n acc) = digits_value_from n acc.
Proof.
  revert n acc. induction fuel as [|fuel IH]; intros n acc Hn.
  - change (n < 1)%N in Hn. assert (n = 0%N) as -> by lia. done.
  - cbn [decimal_fuel]. destruct (N.ltb_spec n 10) as [Hlt | Hge].
    + unfold digits_value_from, digit. cbn [foldl]. f_equal.
      rewrite N.mod_small by lia. lia.
    + rewrite IH.
      * unfold digits_value_from, digit. cbn [foldl]. f_equal.
        pose proof (N.div_mod n 10 ltac:(lia)) as H. revert H. clear.
        generalize (n `div` 10)%N (n `mod` 10)%N. intros q r H. lia.
      * rewrite Nat2N.inj_succ, N.pow_succ_r' in Hn.
        apply N.Div0.div_lt_upper_bound. lia.
Qed.

(** [decimal] writes all the digits of [n]: reading them back gives [n]. *)
Lemma decimal_value n : digits_value_from 0 (decimal n) = n.
Proof.
  unfold decimal. rewrite decimal_fuel_value; [done |].
  rewrite Nat2N.inj_succ, N2Nat.id.
  destruct n as [|p]; [done |]. apply N.log2_spec. lia.
Qed.

(** ** [updateCell] touches one cell position of the rows named [rowId] *)

Lemma updateCell_touches_only rowId col updates prevRows :
  touches_only rowId col (spread updates) prevRows (updateCell rowId col updates prevRows).
Proof.
  unfold touches_only, updateCell. split; [by rewrite length_fmap |].
  intros i row Hrow. rewrite list_lookup_fmap, Hrow. simpl.
  eexists. split; [done |].
  destruct (decide (row_id row ≠ rowId)) as [Hne | Heq].
  - repeat split; [done..|]. intros j cell Hcell.
    rewrite Hcell. by rewrite decide_False by (intros [? _]; congruence).
  - apply dec_stable in Heq. simpl. rewrite length_alter. repeat split; [done..|].
    intros j cell Hcell. destruct (decide (col = j)) as [-> | Hj].
    + rewrite list_lookup_alter_eq, Hcell. simpl. by rewrite decide_True.
    + rewrite list_lookup_alter_ne, Hcell by done.
      by rewrite decide_False by (intros [_ ?]; congruence).
Qed.

Lemma alter_absent {A} (f : A → A) (i : nat) (l : list A) :
  l !! i = None → alter f i l = l.
Proof.
  revert i. induction l as [|x l IH]; intros [|i]; simpl; try done.
  intros H. f_equal. by apply IH.
Qed.

Lemma updateCell_absent rowId col updates prevRows :
  (∀ row, row ∈ prevRows → row_id row = rowId → cells row !! col = None) →
  updateCell rowId col updates prevRows = prevRows.
Proof.
  intros H. unfold updateCell.
  induction prevRows as [|row rs IH]; [done |].
  rewrite fmap_cons. f_equal.
  - destruct (decide (row_id row ≠ rowId)) as [| Heq]; [done |].
    apply dec_stable in Heq.
    rewrite alter_absent by (apply H; [by left | done]).
    by destruct row.
  - apply IH. intros r Hr. apply H. by right.
Qed.

Lemma find_row_None rowId (rs : list RowData) :
  find_row rowId rs = None ↔ ∀ row, row ∈ rs → row_id row ≠ rowId.
Proof.
  unfold find_row. rewrite fmap_None, list_find_None, Forall_forall. reflexivity.
Qed.

Lemma findIndex_id_None sourceColId (hs : list ColumnHeader) :
  findIndex_id sourceColId hs = None ↔ ∀ h, h ∈ hs → Some (col_id h) ≠ sourceColId.
Proof.
  unfold findIndex_id. rewrite fmap_None, list_find_None, Forall_forall. reflexivity.
Qed.

Lemma setRows_id (w : World) : setRows (λ prev, prev) w = w.
Proof. by destruct w. Qed.

Lemma setRows_same f (w : World) : f (st_rows w) = st_rows w → setRows f w = w.
Proof. destruct w; unfold setRows; simpl. by intros ->. Qed.

(** ** [executeGeneration], case by case *)

Lemma executeGeneration_direct env rowId index text w h :
  headers env !! index = Some h → isInput h = false → trim text ≠ [] →
  executeGeneration env rowId index (Some text) w =
    await_generateContent
      {| a_env := env; a_rowId := rowId; a_targetColIndex := index;
         a_targetHeader := h; a_sourceValue := text |}
      (setRows (updateCell rowId index loadingUpdate) w).
Proof.
  intros Hh Hin Ht. unfold executeGeneration. rewrite Hh, Hin. simpl.
  apply truthy_true_iff in Ht. by rewrite Ht.
Qed.

Lemma executeGeneration_direct_blank env rowId index text w :
  trim text = [] → executeGeneration env rowId index (Some text) w = w.
Proof.
  intros Ht. unfold executeGeneration.
  destruct (headers env !! index) as [h|]; [|done].
  destruct (isInput h); [done |]. simpl. by rewrite Ht.
Qed.

Lemma executeGeneration_entry env rowId index directInputVal w h :
  headers env !! index = Some h → isInput h = true →
  executeGeneration env rowId index directInputVal w = w.
Proof. intros Hh Hin. unfold executeGeneration. by rewrite Hh, Hin. Qed.

(** ** The claims about cell updates *)

(** C7. Typing in a cell ([handleCellChange]) gives the cell at that
    position, in the row of that id, the typed text as value and the
    status idle; every other cell of every row is as it was (value,
    status and all), and no adapter call is issued or pending that was
    not before: calls are issued by the commit handler only. *)
Theorem handleCellChange_sets_one_cell_idle
    (rowId : jsstring) (colIndex : nat) (newValue : jsstring) (w : World) :
  touches_only rowId colIndex
    (λ cell, {| cell_id := cell_id cell; value := newValue; status := IDLE;
                errorMessage := errorMessage cell |})
    (st_rows w) (st_rows (handleCellChange rowId colIndex newValue w))
  ∧ calls (handleCellChange rowId colIndex newValue w) = calls w
  ∧ inflight (handleCellChange rowId colIndex newValue w) = inflight w
  ∧ st_headers (handleCellChange rowId colIndex newValue w) = st_headers w
  ∧ st_settings (handleCellChange rowId colIndex newValue w) = st_settings w.
Proof.
  unfold handleCellChange. split; [|done].
  exact (updateCell_touches_only rowId colIndex _ (st_rows w)).
Qed.

(** C10. [updateCell] is a total function, and it returns the row store
    unchanged when no row with id [rowId] has a cell at [colIndex], which
    covers a [rowId] that matches no row and a column index beyond the
    row's cells.  [executeGeneration] called without [directInputVal] for
    a [rowId] that matches no row (of the rows its closure sees, and of
    the store) returns with the whole state as it was: no status change
    and no adapter call; so does [regenerateCell]. *)
Theorem updateCell_and_executeGeneration_out_of_range
    (rowId : jsstring) (colIndex : nat) (updates : CellUpdates)
    (prevRows : list RowData) (env : Closure) (w : World) :
  (∀ row, row ∈ prevRows → row_id row = rowId → cells row !! colIndex = None) →
  find_row rowId (rows env) = None →
  find_row rowId (st_rows w) = None →
  updateCell rowId colIndex updates prevRows = prevRows
  ∧ executeGeneration env rowId colIndex None w = w
  ∧ regenerateCell rowId colIndex w = w.
Proof.
  intros Hcell Henv Hstore. split; [by apply updateCell_absent |].
  assert (Hgen : ∀ env', find_row rowId (rows env') = None →
                 executeGeneration env' rowId colIndex None w = w).
  { intros env' Hfind. unfold executeGeneration.
    destruct (headers env' !! colIndex) as [h|]; [|done].
    destruct (isInput h); [done |].
    unfold determineSource. rewrite Hfind.
    destruct (findIndex_id _ _); [done |].
    apply setRows_same, updateCell_absent.
    intros row Hrow Hid.
    by destruct (proj1 (find_row_None rowId (st_rows w)) Hstore row Hrow). }
  split; [by apply Hgen | by apply Hgen].
Qed.

(** C3. For a non-entry target column called without [directInputVal]
    whose source column id is the id of no header, [executeGeneration]
    marks the target cell failed with the configuration-error message and
    returns: no adapter call is issued and no other cell changes. *)
Theorem executeGeneration_invalid_source
    (env : Closure) (rowId : jsstring) (targetColIndex : nat)
    (targetHeader : ColumnHeader) (w : World) :
  headers env !! targetColIndex = Some targetHeader →
  isInput targetHeader = false →
  (∀ h, h ∈ headers env → Some (col_id h) ≠ sourceColumnId targetHeader) →
  touches_only rowId targetColIndex
    (λ cell, {| cell_id := cell_id cell; value := value cell; status := ERROR;
                errorMessage := Some invalidSourceMessage |})
    (st_rows w) (st_rows (executeGeneration env rowId targetColIndex None w))
  ∧ calls (executeGeneration env rowId targetColIndex None w) = calls w
  ∧ inflight (executeGeneration env rowId targetColIndex None w) = inflight w
  ∧ st_headers (executeGeneration env rowId targetColIndex None w) = st_headers w.
Proof.
  intros Hh Hin Hsrc. apply (proj2 (findIndex_id_None _ _)) in Hsrc.
  unfold executeGeneration, determineSource. rewrite Hh, Hin, Hsrc.
  split; [|done].
  exact (updateCell_touches_only rowId targetColIndex _ (st_rows w)).
Qed.

(** C4. When the input text [executeGeneration] resolves (the direct
    input if one is given, otherwise the value of the source cell of the
    row, or the empty string when that cell is missing or empty) trims to
    the empty string, the call returns the whole state as it was: no
    adapter call, no status change on any cell. *)
Theorem executeGeneration_blank_input
    (env : Closure) (rowId : jsstring) (targetColIndex : nat)
    (directInputVal : option jsstring) (sourceValue : jsstring) (w : World) :
  directInputVal = Some sourceValue
  ∨ (directInputVal = None ∧
     ∃ targetHeader sourceColIndex row,
       headers env !! targetColIndex = Some targetHeader ∧
       findIndex_id (sourceColumnId targetHeader) (headers env) = Some sourceColIndex ∧
       find_row rowId (rows env) = Some row ∧
       sourceValue = orElse (value <$> cells row !! sourceColIndex) []) →
  trim sourceValue = [] →
  executeGeneration env rowId targetColIndex directInputVal w = w.
Proof.
  intros [-> | (-> & h & j & row & Hh & Hj & Hrow & ->)] Hblank.
  - by apply executeGeneration_direct_blank.
  - unfold executeGeneration, determineSource. rewrite Hh, Hj, Hrow.
    destruct (isInput h); [done |]. by rewrite Hblank.
Qed.

(** C2. When the adapter call rejects, the continuation of
    [executeGeneration] marks the target cell failed with the adapter's
    error message, keeping its value; every other cell of every row is as
    it was, and no generation is started for any column: no adapter call
    is issued and no activation is added. *)
Theorem resume_rejected_marks_target_only
    (a : Activation) (message : option jsstring) (w : World) :
  touches_only (a_rowId a) (a_targetColIndex a)
    (λ cell, {| cell_id := cell_id cell; value := value cell; status := ERROR;
                errorMessage := message |})
    (st_rows w) (st_rows (resume a (Rejected message) w))
  ∧ calls (resume a (Rejected message) w) = calls w
  ∧ inflight (resume a (Rejected message) w) = inflight w
  ∧ st_headers (resume a (Rejected message) w) = st_headers w
  ∧ st_settings (resume a (Rejected message) w) = st_settings w.
Proof.
  split; [|done].
  exact (updateCell_touches_only (a_rowId a) (a_targetColIndex a) _ (st_rows w)).
Qed.

(** ** Dependents and propagation *)

Lemma dependents_spec (hs : list ColumnHeader) (ofId : jsstring) index h :
  (index, h) ∈ dependents hs ofId ↔ hs !! index = Some h ∧ sourceColumnId h = Some ofId.
Proof.
  unfold dependents. rewrite list_elem_of_filter, elem_of_lookup_imap. simpl. split.
  - intros (Hsrc & i & x & Heq & Hx). by simplify_eq.
  - intros (Hh & Hsrc). split; [done |]. by exists index, h.
Qed.

Lemma dependents_index_spec (hs : list ColumnHeader) (ofId : jsstring) index :
  index ∈ (dependents hs ofId).*1 ↔
  ∃ h, hs !! index = Some h ∧ sourceColumnId h = Some ofId.
Proof.
  rewrite list_elem_of_fmap. split.
  - intros ([i h] & -> & Hin). exists h. by apply dependents_spec.
  - intros (h & Hh). exists (index, h). split; [done |]. by apply dependents_spec.
Qed.

(** The dependents come in header order, each column at most once. *)
Lemma dependents_index_order (hs : list ColumnHeader) (ofId : jsstring) :
  (dependents hs ofId).*1 `sublist_of` seq 0 (length hs).
Proof.
  unfold dependents.
  transitivity ((imap (λ index h, (index, h)) hs).*1).
  - apply fmap_sublist, sublist_filter.
  - assert (E : (imap (λ index h, (index, h)) hs).*1 = seq 0 (length hs)).
    { rewrite fmap_imap, <- (list_fmap_id (seq 0 (length hs))).
      rewrite <- (imap_seq_0 hs id). by apply imap_ext. }
    by rewrite E.
Qed.

Lemma dependents_lookup (hs : list ColumnHeader) (ofId : jsstring) dep :
  dep ∈ dependents hs ofId → hs !! dep.1 = Some dep.2.
Proof. destruct dep as [i h]. intros H. by apply dependents_spec in H as [? _]. Qed.

Lemma forEach_executeGeneration env rowId text (deps : list (nat * ColumnHeader)) w :
  trim text ≠ [] →
  (∀ dep, dep ∈ deps → headers env !! dep.1 = Some dep.2) →
  let issued :=
    (λ dep, {| a_env := env; a_rowId := rowId; a_targetColIndex := dep.1;
               a_targetHeader := dep.2; a_sourceValue := text |})
    <$> filter (λ dep, isInput dep.2 = false) deps in
  let w' := foldl (λ w' dep, executeGeneration env rowId dep.1 (Some text) w') w deps in
  inflight w' = inflight w ++ issued ∧ calls w' = calls w ++ (call_of <$> issued)
  ∧ st_headers w' = st_headers w.
Proof.
  intros Ht. revert w. induction deps as [|dep deps IH]; intros w Hdeps; simpl.
  - by rewrite !app_nil_r.
  - assert (Hdep : headers env !! dep.1 = Some dep.2) by (apply Hdeps; by left).
    assert (Hrest : ∀ d, d ∈ deps → headers env !! d.1 = Some d.2)
      by (intros d Hd; apply Hdeps; by right).
    destruct (IH (executeGeneration env rowId dep.1 (Some text) w) Hrest)
      as (Hi & Hc & Hh).
    simpl in Hi, Hc, Hh. rewrite Hi, Hc, Hh. clear Hi Hc Hh IH.
    destruct (isInput dep.2) eqn:Hin.
    + rewrite (executeGeneration_entry _ _ _ _ _ _ Hdep Hin).
      by rewrite filter_cons_False by (rewrite Hin; done).
    + rewrite (executeGeneration_direct _ _ _ _ _ _ Hdep Hin Ht).
      rewrite filter_cons_True by done. simpl.
      by rewrite <- !app_assoc.
Qed.

(** C1. When the adapter call resolves with [result], the continuation
    of [executeGeneration] first gives the target cell the value [result]
    and the status succeeded (no other cell changes in that step), and
    then calls [executeGeneration] with [result] as direct input once for
    every header whose source column id is the target's id, in header
    order.  Such a call for a non-entry column, when [result] is not
    blank, issues an adapter call whose input is [result] itself, whatever
    the rows the closure or the store hold at that time; and when the
    continuation returns, the call of every such dependent is pending
    with [result] as its input. *)
Theorem resume_resolved_sets_cell_and_propagates
    (a : Activation) (result : jsstring) (w : World) :
  touches_only (a_rowId a) (a_targetColIndex a)
    (λ cell, {| cell_id := cell_id cell; value := result; status := SUCCESS;
                errorMessage := errorMessage cell |})
    (st_rows w)
    (st_rows (setRows (updateCell (a_rowId a) (a_targetColIndex a) (successUpdate result)) w))
  ∧ resume a (Resolved result) w =
      foldl (λ w' index, executeGeneration (a_env a) (a_rowId a) index (Some result) w')
        (setRows (updateCell (a_rowId a) (a_targetColIndex a) (successUpdate result)) w)
        (dependents (headers (a_env a)) (col_id (a_targetHeader a))).*1
  ∧ (∀ index, index ∈ (dependents (headers (a_env a)) (col_id (a_targetHeader a))).*1 ↔
       ∃ h, headers (a_env a) !! index = Some h ∧
            sourceColumnId h = Some (col_id (a_targetHeader a)))
  ∧ (dependents (headers (a_env a)) (col_id (a_targetHeader a))).*1
      `sublist_of` seq 0 (length (headers (a_env a)))
  ∧ (∀ index h staleRows w',
       headers (a_env a) !! index = Some h → isInput h = false → trim result ≠ [] →
       calls (executeGeneration
                {| headers := headers (a_env a); rows := staleRows;
                   settings := settings (a_env a) |}
                (a_rowId a) index (Some result) w')
       = calls w' ++ [ {| call_systemPrompt := systemPrompt h;
                          call_userPrompt := result;
                          call_settings := settings (a_env a) |} ])
  ∧ (∀ index h,
       headers (a_env a) !! index = Some h →
       sourceColumnId h = Some (col_id (a_targetHeader a)) →
       isInput h = false → trim result ≠ [] →
       {| a_env := a_env a; a_rowId := a_rowId a; a_targetColIndex := index;
          a_targetHeader := h; a_sourceValue := result |}
       ∈ inflight (resume a (Resolved result) w)).
Proof.
  split; [exact (updateCell_touches_only (a_rowId a) (a_targetColIndex a) _ (st_rows w)) |].
  split.
  { simpl. generalize (setRows (updateCell (a_rowId a) (a_targetColIndex a)
                                  (successUpdate result)) w).
    induction (dependents _ _) as [|dep deps IH]; intros w0; [done |].
    simpl. apply IH. }
  split; [apply dependents_index_spec |].
  split; [apply dependents_index_order |].
  split.
  { intros index h staleRows w' Hh Hin Ht.
    by rewrite (executeGeneration_direct _ _ _ _ _ h). }
  intros index h Hh Hsrc Hin Ht.
  destruct (forEach_executeGeneration (a_env a) (a_rowId a) result
              (dependents (headers (a_env a)) (col_id (a_targetHeader a)))
              (setRows (updateCell (a_rowId a) (a_targetColIndex a) (successUpdate result)) w)
              Ht) as (Hi & _).
  { intros dep. apply dependents_lookup. }
  simpl in Hi. simpl. rewrite Hi. apply elem_of_app. right.
  apply list_elem_of_fmap. exists (index, h). split; [done |].
  apply list_elem_of_filter. split; [done |]. by apply dependents_spec.
Qed.

(** ** Sequencing of the adapter calls *)

(** C5, as stated, fails: committing ["x"] in the entry cell of a sheet
    whose entry column has two dependents issues the adapter calls of both
    dependents before either has settled; after the commit handler
    returns, two calls are pending at once. *)
Lemma sibling_calls_pending_together :
  inflight fanWorld = [] ∧
  ¬ sequential (handleCellBlur (lit "row-1") 0 (lit "x") fanWorld) ∧
  a_targetColIndex <$> inflight (handleCellBlur (lit "row-1") 0 (lit "x") fanWorld) = [1; 2] ∧
  call_userPrompt <$> calls (handleCellBlur (lit "row-1") 0 (lit "x") fanWorld)
    = [lit "x"; lit "x"].
Proof.
  split; [done |]. split; [| by vm_compute].
  unfold sequential.
  replace (length (inflight (handleCellBlur (lit "row-1") 0 (lit "x") fanWorld)))
    with 2 by (by vm_compute).
  lia.
Qed.

(** C5, amended. Propagation awaits the source call only.  When a call
    resolves with a non-blank [text], and likewise when a non-blank text
    is committed in a cell, the adapter calls of all the non-entry
    dependents are issued in that one synchronous pass, in header order,
    none awaited before the next: they are all pending when the pass
    ends.  A call of [executeGeneration] itself issues at most the call of
    its own target, never a dependent's: those are issued only once the
    target's call has settled. *)
Theorem propagation_issues_all_dependents_at_once
    (a : Activation) (text : jsstring) (w : World)
    (rowId : jsstring) (colIndex : nat) (currentHeader : ColumnHeader) :
  trim text ≠ [] →
  st_headers w !! colIndex = Some currentHeader →
  (inflight (resume a (Resolved text) w)
     = inflight w ++ issuedFor (a_env a) (a_rowId a) (col_id (a_targetHeader a)) text
   ∧ calls (resume a (Resolved text) w)
     = calls w ++ (call_of <$> issuedFor (a_env a) (a_rowId a) (col_id (a_targetHeader a)) text))
  ∧ (inflight (handleCellBlur rowId colIndex text w)
       = inflight w ++ issuedFor (render w) rowId (col_id currentHeader) text
     ∧ calls (handleCellBlur rowId colIndex text w)
       = calls w ++ (call_of <$> issuedFor (render w) rowId (col_id currentHeader) text))
  ∧ (∀ env target directInputVal,
       (inflight (executeGeneration env rowId target directInputVal w) = inflight w
        ∧ calls (executeGeneration env rowId target directInputVal w) = calls w)
       ∨ ∃ activation,
           a_targetColIndex activation = target
           ∧ inflight (executeGeneration env rowId target directInputVal w)
               = inflight w ++ [activation]
           ∧ calls (executeGeneration env rowId target directInputVal w)
               = calls w ++ [call_of activation]).
Proof.
  intros Ht Hcur. split; [| split].
  - destruct (forEach_executeGeneration (a_env a) (a_rowId a) text
                (dependents (headers (a_env a)) (col_id (a_targetHeader a)))
                (setRows (updateCell (a_rowId a) (a_targetColIndex a) (successUpdate text)) w)
                Ht) as (Hi & Hc & _).
    { intros dep. apply dependents_lookup. }
    split; [exact Hi | exact Hc].
  - unfold handleCellBlur. rewrite Hcur.
    destruct (forEach_executeGeneration (render w) rowId text
                (dependents (st_headers w) (col_id currentHeader)) w Ht) as (Hi & Hc & _).
    { intros dep. apply (dependents_lookup (st_headers w)). }
    split; [exact Hi | exact Hc].
  - intros env target directInputVal. unfold executeGeneration.
    destruct (headers env !! target) as [h|]; [| by left].
    destruct (isInput h); [by left |].
    destruct (determineSource env rowId h directInputVal) as [s| |]; [| by left..].
    destruct (negb (truthy (trim s))); [by left |].
    right. eexists. split; [| split]; [| reflexivity..]. done.
Qed.

(** ** Column and row operations keep rows and headers in lockstep *)

Lemma delete_beyond {A} (i : nat) (l : list A) : length l ≤ i → delete i l = l.
Proof.
  revert i. induction l as [|x l IH]; intros [|i] Hi; simpl in *; try done; [lia |].
  f_equal. apply IH. lia.
Qed.

Lemma imap_pair_shift {A} (k : nat) (xs : list A) :
  imap ((λ i y, (k + i, y)) ∘ S) xs = imap (λ i y, (S k + i, y)) xs.
Proof. apply imap_ext. intros i y _. simpl. f_equal. lia. Qed.

Lemma filter_index_below {A} (k m : nat) (xs : list A) :
  m < k → (filter (λ p, p.1 ≠ m) (imap (λ i x, (k + i, x)) xs)).*2 = xs.
Proof.
  revert k. induction xs as [|x xs IH]; intros k Hm; [done |].
  rewrite imap_cons, imap_pair_shift.
  rewrite filter_cons_True by (simpl; lia).
  rewrite fmap_cons. simpl. f_equal. exact (IH (S k) ltac:(lia)).
Qed.

Lemma filter_index_shift {A} (k index : nat) (xs : list A) :
  (filter (λ p, p.1 ≠ k + index) (imap (λ i x, (k + i, x)) xs)).*2 = delete index xs.
Proof.
  revert k index. induction xs as [|x xs IH]; intros k index; [done |].
  rewrite imap_cons, imap_pair_shift. destruct index as [|index].
  - rewrite filter_cons_False by (simpl; intros H; apply H; lia).
    exact (filter_index_below (S k) (k + 0) xs ltac:(lia)).
  - rewrite filter_cons_True by (simpl; lia).
    rewrite fmap_cons. simpl. f_equal.
    replace (k + S index) with (S k + index) by lia. exact (IH (S k) index).
Qed.

(** Filtering out one index is deleting the element at that index. *)
Lemma filter_index_delete {A} (index : nat) (xs : list A) :
  filter_index index xs = delete index xs.
Proof. exact (filter_index_shift 0 index xs). Qed.

(** C6. Lockstep (every row has exactly one cell per header) is kept by
    the structural operations.  [addColumn] appends one header, not an
    entry column, whose source is the id of the column that was last, and
    appends one idle cell to every row.  [removeColumn] at a non-zero
    index deletes the header and, in every row, the cell at that index;
    at index 0 it changes nothing.  [addRow] appends one row with one
    idle cell per header.  [removeRow] keeps lockstep too. *)
Theorem structural_operations_keep_lockstep
    (w : World) (now : N) (nowCell : nat → N) (index : nat) (rowId : jsstring) :
  lockstep w →
  (lockstep (addColumn now w)
   ∧ (∃ newHeader,
        st_headers (addColumn now w) = st_headers w ++ [newHeader]
        ∧ sourceColumnId newHeader = col_id <$> last (st_headers w)
        ∧ isInput newHeader = false)
   ∧ ∀ i row, st_rows w !! i = Some row →
       ∃ newCell, isIdle newCell ∧
         st_rows (addColumn now w) !! i
           = Some {| row_id := row_id row; cells := cells row ++ [newCell] |})
  ∧ (index ≠ 0 →
     lockstep (removeColumn index w)
     ∧ st_headers (removeColumn index w) = delete index (st_headers w)
     ∧ st_rows (removeColumn index w)
         = (λ row, {| row_id := row_id row; cells := delete index (cells row) |})
           <$> st_rows w)
  ∧ removeColumn 0 w = w
  ∧ (lockstep (addRow now nowCell w)
     ∧ ∃ newRow,
         st_rows (addRow now nowCell w) = st_rows w ++ [newRow]
         ∧ length (cells newRow) = length (st_headers w)
         ∧ Forall isIdle (cells newRow)
         ∧ st_headers (addRow now nowCell w) = st_headers w)
  ∧ lockstep (removeRow rowId w).
Proof.
  intros Hlock. unfold lockstep in *. repeat apply conj.
  - simpl. rewrite Forall_fmap. eapply Forall_impl; [exact Hlock |].
    intros row Hrow. simpl. rewrite !length_app, Hrow. done.
  - eexists. split; [reflexivity |]. split; [| done]. simpl.
    by rewrite last_lookup, Nat.sub_1_r.
  - intros i row Hrow. eexists. split; [| simpl; by rewrite list_lookup_fmap, Hrow].
    done.
  - intros Hidx. unfold removeColumn. rewrite decide_False by done. simpl.
    repeat apply conj.
    + rewrite Forall_fmap. eapply Forall_impl; [exact Hlock |].
      intros row Hrow. simpl in *. rewrite !filter_index_delete.
      destruct (decide (index < length (cells row))) as [Hlt | Hge].
      * rewrite !length_delete by (apply lookup_lt_is_Some; lia). lia.
      * rewrite !delete_beyond by lia. done.
    + apply filter_index_delete.
    + apply list_fmap_ext. intros i row _. by rewrite filter_index_delete.
  - done.
  - simpl. apply Forall_app. split; [exact Hlock |].
    constructor; [| constructor]. simpl. by rewrite length_imap.
  - eexists. split; [reflexivity |]. simpl. split; [by rewrite length_imap |].
    split; [| done]. apply Forall_forall. intros cell Hcell.
    apply elem_of_lookup_imap in Hcell as (i & h & -> & _). done.
  - simpl. apply Forall_forall. intros row Hrow.
    apply list_elem_of_filter in Hrow as [_ Hrow].
    by apply (proj1 (Forall_forall _ _) Hlock).
Qed.

(** ** The generation adapters *)

Lemma ok_iff (response : Response) :
  ok response = true ↔ (200 ≤ resp_status response ∧ resp_status response ≤ 299)%N.
Proof. unfold ok. rewrite andb_true_iff, !N.leb_le. reflexivity. Qed.

Lemma rethrow_message {A} fallback (c : Completion A) message :
  fallback ≠ [] → rethrow fallback c = Rejected message →
  ∃ s, message = Some s ∧ s ≠ [].
Proof.
  intros Hf. destruct c as [a | m]; simpl; [done |].
  intros [= <-]. eexists. split; [done |]. by apply orElse_truthy.
Qed.

(** C8, as stated, fails for the local provider: a 200 response whose
    generated text is empty makes [generateContent] resolve, with the
    empty string. *)
Lemma local_empty_text_resolves :
  generateContent (λ _, Resolved emptyContentResponse) (λ _, Rejected None) None None
    (lit "Summarize.") (lit "hello") localSettings
  = Resolved (JString []).
Proof. reflexivity. Qed.

(** C8, amended. With the hosted provider, [generateContent] rejects with
    the message "Empty response from Gemini" whenever the response text is
    empty or undefined, and it never resolves with an empty text.  Every
    rejection, of either provider, carries a non-empty message.  With the
    local provider, a 2xx response whose body does not parse rejects,
    while one whose first choice has an empty or absent message content
    resolves with the empty string. *)
Theorem generateContent_on_empty_response
    (fetch : Request → Completion Response)
    (sdk_generateContent : GeminiRequest → Completion (option jsstring))
    (API_KEY nullReadMessage : option jsstring)
    (systemPrompt userPrompt : jsstring) (settings : AppSettings) :
  (provider settings = GEMINI →
     (∀ text,
        sdk_generateContent (geminiRequest API_KEY systemPrompt userPrompt settings)
          = Resolved text →
        text = None ∨ text = Some [] →
        generateContent fetch sdk_generateContent API_KEY nullReadMessage
          systemPrompt userPrompt settings
        = Rejected (Some (lit "Empty response from Gemini")))
     ∧ generateContent fetch sdk_generateContent API_KEY nullReadMessage
         systemPrompt userPrompt settings ≠ Resolved (JString []))
  ∧ (∀ message,
       generateContent fetch sdk_generateContent API_KEY nullReadMessage
         systemPrompt userPrompt settings = Rejected message →
       ∃ s, message = Some s ∧ s ≠ [])
  ∧ (provider settings = LOCAL →
     ∀ response,
       fetch (localRequest systemPrompt userPrompt settings) = Resolved response →
       ok response = true →
       (∀ e, resp_json response = Rejected e →
          ∃ s, generateContent fetch sdk_generateContent API_KEY nullReadMessage
                 systemPrompt userPrompt settings = Rejected (Some s) ∧ s ≠ [])
       ∧ (∀ fields cfields rest mfields,
            resp_json response = Resolved (JObject fields) →
            own (lit "choices") fields = Some (JArray (JObject cfields :: rest)) →
            own (lit "message") cfields = Some (JObject mfields) →
            own (lit "content") mfields = None
            ∨ own (lit "content") mfields = Some (JString []) →
            generateContent fetch sdk_generateContent API_KEY nullReadMessage
              systemPrompt userPrompt settings = Resolved (JString []))).
Proof.
  unfold generateContent, generateGemini, generateLocal.
  split; [| split].
  - intros ->. unfold generateGemini_try. split.
    + intros text -> [-> | ->]; done.
    + destruct (sdk_generateContent _) as [[[|c t]|]|e]; done.
  - intros message. destruct (provider settings).
    + destruct (rethrow _ _) as [t|m] eqn:Hr; [done |].
      intros [= <-]. eapply rethrow_message; [| exact Hr]. by vm_compute.
    + intros Hr. eapply rethrow_message; [| exact Hr]. by vm_compute.
  - intros -> response Hfetch Hok. unfold generateLocal_try. rewrite Hfetch, Hok. simpl.
    split.
    + intros e ->. simpl. eexists. split; [done |]. apply orElse_truthy. by vm_compute.
    + intros fields cfields rest mfields -> Hchoices Hmessage Hcontent. simpl.
      rewrite Hchoices. simpl. rewrite Hmessage. simpl.
      by destruct Hcontent as [-> | ->].
Qed.

(** C9. [generateLocal] sends one request: a POST to
    [{baseUrl}/v1/chat/completions] whose payload has the configured model
    name, a system message with the system prompt, a user message with the
    user prompt, and [stream: false]; its outcome depends on the network
    through the response to that request only.  On a status outside
    200..299 it rejects with a message that ends with the response body
    text.  On a status in 200..299 whose body is an object, it resolves
    with the message content of the first choice, and with the empty
    string when the content, the message or the first choice is absent
    (or the content is falsy). *)
Theorem generateLocal_contract
    (fetch : Request → Completion Response) (nullReadMessage : option jsstring)
    (systemPrompt userPrompt : jsstring) (settings : AppSettings) :
  (url (localRequest systemPrompt userPrompt settings)
     = localBaseUrl settings ++ lit "/v1/chat/completions"
   ∧ method (localRequest systemPrompt userPrompt settings) = lit "POST"
   ∧ prop (lit "model") (req_body (localRequest systemPrompt userPrompt settings))
       = Some (JString (localModelName settings))
   ∧ prop (lit "messages") (req_body (localRequest systemPrompt userPrompt settings))
       = Some (JArray
           [ JObject [ (lit "role", JString (lit "system"));
                       (lit "content", JString systemPrompt) ];
             JObject [ (lit "role", JString (lit "user"));
                       (lit "content", JString userPrompt) ] ])
   ∧ prop (lit "stream") (req_body (localRequest systemPrompt userPrompt settings))
       = Some (JBool false))
  ∧ (∀ fetch',
       fetch' (localRequest systemPrompt userPrompt settings)
         = fetch (localRequest systemPrompt userPrompt settings) →
       generateLocal fetch' nullReadMessage systemPrompt userPrompt settings
       = generateLocal fetch nullReadMessage systemPrompt userPrompt settings)
  ∧ (∀ response,
       fetch (localRequest systemPrompt userPrompt settings) = Resolved response →
       ((resp_status response < 200 ∨ 299 < resp_status response)%N →
        ∀ errText, resp_text response = Resolved errText →
          generateLocal fetch nullReadMessage systemPrompt userPrompt settings
          = Rejected (Some (lit "Local LLM Error: " ++ decimal (resp_status response)
                            ++ lit " - " ++ errText)))
       ∧ ((200 ≤ resp_status response ∧ resp_status response ≤ 299)%N →
          ∀ fields, resp_json response = Resolved (JObject fields) →
            (∀ cfields rest mfields content,
               own (lit "choices") fields = Some (JArray (JObject cfields :: rest)) →
               own (lit "message") cfields = Some (JObject mfields) →
               own (lit "content") mfields = Some content →
               generateLocal fetch nullReadMessage systemPrompt userPrompt settings
               = Resolved (if truthyJSON content then content else JString []))
            ∧ (∀ cfields rest mfields,
                 own (lit "choices") fields = Some (JArray (JObject cfields :: rest)) →
                 own (lit "message") cfields = Some (JObject mfields) →
                 own (lit "content") mfields = None →
                 generateLocal fetch nullReadMessage systemPrompt userPrompt settings
                 = Resolved (JString []))
            ∧ (∀ cfields rest,
                 own (lit "choices") fields = Some (JArray (JObject cfields :: rest)) →
                 own (lit "message") cfields = None →
                 generateLocal fetch nullReadMessage systemPrompt userPrompt settings
                 = Resolved (JString []))
            ∧ (own (lit "choices") fields = None
               ∨ own (lit "choices") fields = Some (JArray []) →
               generateLocal fetch nullReadMessage systemPrompt userPrompt settings
               = Resolved (JString [])))).
Proof.
  split; [by repeat split |]. split.
  { intros fetch' Hsame. unfold generateLocal, generateLocal_try. by rewrite Hsame. }
  intros response Hfetch. unfold generateLocal, generateLocal_try. rewrite Hfetch.
  split.
  - intros Hstatus errText Htext.
    assert (Hok : ok response = false).
    { apply not_true_is_false. rewrite ok_iff. lia. }
    rewrite Hok, Htext. simpl.
    by replace (lit "Local LLM Error: ") with (76%N :: lit "ocal LLM Error: ")
      by (by vm_compute).
  - intros Hstatus fields Hjson. apply ok_iff in Hstatus. rewrite Hstatus, Hjson. simpl.
    repeat split.
    + intros cfields rest mfields content Hc Hm Hv. rewrite Hc. simpl.
      rewrite Hm. simpl. rewrite Hv. simpl. done.
    + intros cfields rest mfields Hc Hm Hv. rewrite Hc. simpl.
      rewrite Hm. simpl. by rewrite Hv.
    + intros cfields rest Hc Hm. rewrite Hc. simpl. by rewrite Hm.
    + intros [Hc | Hc]; by rewrite Hc.
Qed.

(** ** The default chain, run step by step *)

(** Typing ["Long text..."] in the entry cell of the first row and
    leaving the cell issues the call of column 1 with that text. *)
Example chain_commit_issues_summarize :
  calls (handleCellBlur row0 0 (lit "Long text...")
           (handleCellChange row0 0 (lit "Long text...") sheet))
  = [ {| call_systemPrompt := lit "Summarize the input in one sentence.";
         call_userPrompt := lit "Long text...";
         call_settings := initialSettings |} ].
Proof. by vm_compute. Qed.

(** When that call resolves with ["Short summary"], the call of column 2
    is issued with ["Short summary"]; when this one resolves, both cells
    are succeeded with the generated values and nothing is pending. *)
Example chain_regenerates_both_columns :
  let committed := handleCellBlur row0 0 (lit "Long text...")
                     (handleCellChange row0 0 (lit "Long text...") sheet) in
  let summarized := settle 0 (Resolved (lit "Short summary")) committed in
  let translated := settle 0 (Resolved (lit "Bref sommaire")) summarized in
  call_userPrompt <$> calls summarized = [lit "Long text..."; lit "Short summary"]
  ∧ call_userPrompt <$> calls translated = [lit "Long text..."; lit "Short summary"]
  ∧ inflight translated = []
  ∧ (λ row, (λ cell, (value cell, status cell)) <$> cells row) <$> st_rows translated !! 0
    = Some [ (lit "Long text...", IDLE); (lit "Short summary", SUCCESS);
             (lit "Bref sommaire", SUCCESS) ].
Proof. by vm_compute. Qed.

(** When the call of column 1 rejects, column 2 is not generated. *)
Example chain_stops_at_failure :
  let committed := handleCellBlur row0 0 (lit "Long text...")
                     (handleCellChange row0 0 (lit "Long text...") sheet) in
  let failed := settle 0 (Rejected (Some (lit "Failed to generate with Gemini"))) committed in
  length (calls failed) = 1
  ∧ inflight failed = []
  ∧ (λ row, (λ cell, (value cell, status cell, errorMessage cell)) <$> cells row)
      <$> st_rows failed !! 0
    = Some [ (lit "Long text...", IDLE, None);
             ([], ERROR, Some (lit "Failed to generate with Gemini"));
             ([], IDLE, None) ].
Proof. by vm_compute. Qed.

(** ** The theorems at concrete inputs *)

(** C1 on the default sheet: when the call of column 1 resolves with
    ["Short summary"], column 2 is the one dependent, and its call has
    ["Short summary"] as input even if the closure holds no rows at all. *)
Lemma resume_resolved_on_default_sheet :
  (dependents (headers (a_env summarizing)) (col_id (a_targetHeader summarizing))).*1 = [2]
  ∧ calls (executeGeneration
             {| headers := headers (a_env summarizing); rows := [];
                settings := settings (a_env summarizing) |}
             row0 2 (Some (lit "Short summary")) sheet)
    = [ {| call_systemPrompt := lit "Translate the summary to French.";
           call_userPrompt := lit "Short summary";
           call_settings := initialSettings |} ].
Proof.
  split; [by vm_compute |].
  destruct (resume_resolved_sets_cell_and_propagates summarizing (lit "Short summary") sheet)
    as (_ & _ & _ & _ & Hcall & _).
  exact (Hcall 2 translateHeader [] sheet eq_refl eq_refl ltac:(by vm_compute)).
Defined.

(** C3 on a sheet whose dependent column names a removed source. *)
Lemma executeGeneration_invalid_source_on_dangling_sheet :
  touches_only (lit "row-1") 1
    (λ cell, {| cell_id := cell_id cell; value := value cell; status := ERROR;
                errorMessage := Some invalidSourceMessage |})
    (st_rows danglingWorld)
    (st_rows (executeGeneration (render danglingWorld) (lit "row-1") 1 None danglingWorld))
  ∧ calls (executeGeneration (render danglingWorld) (lit "row-1") 1 None danglingWorld)
    = calls danglingWorld
  ∧ inflight (executeGeneration (render danglingWorld) (lit "row-1") 1 None danglingWorld)
    = inflight danglingWorld
  ∧ st_headers (executeGeneration (render danglingWorld) (lit "row-1") 1 None danglingWorld)
    = st_headers danglingWorld.
Proof.
  apply (executeGeneration_invalid_source (render danglingWorld) (lit "row-1") 1
           translateHeader danglingWorld).
  - reflexivity.
  - reflexivity.
  - apply (proj1 (findIndex_id_None _ _)). by vm_compute.
Defined.

(** C4 on the default sheet: a direct input of three spaces, and a
    regeneration of column 1 while the entry cell is empty. *)
Lemma executeGeneration_blank_input_on_default_sheet :
  executeGeneration (render sheet) row0 1 (Some (lit "   ")) sheet = sheet
  ∧ executeGeneration (render sheet) row0 1 None sheet = sheet.
Proof.
  split.
  - apply (executeGeneration_blank_input (render sheet) row0 1 (Some (lit "   ")) (lit "   ")).
    + by left.
    + by vm_compute.
  - apply (executeGeneration_blank_input (render sheet) row0 1 None []).
    + right. split; [done |].
      exists (a_targetHeader summarizing), 0,
        {| row_id := row0;
           cells := [ idleCell (lit "cell-0-0"); idleCell (lit "cell-0-1");
                      idleCell (lit "cell-0-2") ] |}.
      by vm_compute.
    + by vm_compute.
Defined.

(** C5, amended, on the sheet with two dependents of the entry column. *)
Lemma propagation_on_fan_sheet :
  trim (lit "x") ≠ []
  ∧ inflight (handleCellBlur (lit "row-1") 0 (lit "x") fanWorld)
    = inflight fanWorld ++ issuedFor (render fanWorld) (lit "row-1") (lit "col-0") (lit "x")
  ∧ length (issuedFor (render fanWorld) (lit "row-1") (lit "col-0") (lit "x")) = 2.
Proof.
  assert (Ht : trim (lit "x") ≠ []) by (by vm_compute).
  split; [exact Ht |]. split; [| by vm_compute].
  destruct (propagation_issues_all_dependents_at_once
              {| a_env := render fanWorld; a_rowId := lit "row-1"; a_targetColIndex := 1;
                 a_targetHeader :=
                   {| col_id := lit "col-1"; label := lit "Summary";
                      systemPrompt := lit "Summarize.";
                      sourceColumnId := Some (lit "col-0"); isInput := false |};
                 a_sourceValue := lit "x" |}
              (lit "x") fanWorld (lit "row-1") 0
              {| col_id := lit "col-0"; label := lit "User Input"; systemPrompt := [];
                 sourceColumnId := None; isInput := true |}
              Ht eq_refl) as (_ & (Hi & _) & _).
  exact Hi.
Defined.

(** C6 on the default sheet. *)
Lemma structural_operations_on_default_sheet :
  lockstep sheet
  ∧ lockstep (addColumn 1700000000001 sheet)
  ∧ lockstep (removeColumn 1 sheet)
  ∧ removeColumn 0 sheet = sheet
  ∧ lockstep (addRow 1700000000002 (λ _, 1700000000002%N) sheet).
Proof.
  assert (Hlock : lockstep sheet) by (repeat constructor).
  destruct (structural_operations_keep_lockstep sheet 1700000000001 (λ _, 1700000000002%N) 1
              row0 Hlock) as ((Hadd & _) & Hremove & Hzero & _).
  destruct (structural_operations_keep_lockstep sheet 1700000000002 (λ _, 1700000000002%N) 1
              row0 Hlock) as (_ & _ & _ & (Hrow & _) & _).
  split; [exact Hlock |]. split; [exact Hadd |].
  split; [exact (proj1 (Hremove ltac:(done))) |]. split; [exact Hzero |]. exact Hrow.
Defined.

(** C8, amended: the hosted provider on an undefined response text, and
    the local provider on a body that does not parse. *)
Lemma generateContent_on_empty_response_examples :
  generateContent (λ _, Rejected None) (λ _, Resolved None) None None
    (lit "Summarize.") (lit "hello") initialSettings
  = Rejected (Some (lit "Empty response from Gemini"))
  ∧ ∃ s, generateContent
           (λ _, Resolved {| resp_status := 200; resp_text := Resolved [];
                             resp_json := Rejected (Some (lit "Unexpected end of JSON input")) |})
           (λ _, Rejected None) None None (lit "Summarize.") (lit "hello") localSettings
         = Rejected (Some s) ∧ s ≠ [].
Proof.
  split.
  - destruct (generateContent_on_empty_response (λ _, Rejected None) (λ _, Resolved None)
                None None (lit "Summarize.") (lit "hello") initialSettings)
      as (Hhosted & _).
    destruct (Hhosted eq_refl) as (Hempty & _).
    exact (Hempty None eq_refl (or_introl eq_refl)).
  - destruct (generateContent_on_empty_response
                (λ _, Resolved {| resp_status := 200; resp_text := Resolved [];
                                  resp_json := Rejected (Some (lit "Unexpected end of JSON input")) |})
                (λ _, Rejected None) None None (lit "Summarize.") (lit "hello") localSettings)
      as (_ & _ & Hlocal).
    destruct (Hlocal eq_refl _ eq_refl eq_refl) as (Hparse & _).
    exact (Hparse _ eq_refl).
Defined.

(** C9 on a 404 response and on a completion. *)
Lemma generateLocal_contract_examples :
  generateLocal (λ _, Resolved notFoundResponse) None
    (lit "Summarize.") (lit "hello") localSettings
  = Rejected (Some (lit "Local LLM Error: 404 - model not found"))
  ∧ generateLocal (λ _, Resolved bonjourResponse) None
      (lit "Translate.") (lit "hello") localSettings
    = Resolved (JString (lit "Bonjour")).
Proof.
  split.
  - destruct (generateLocal_contract (λ _, Resolved notFoundResponse) None
                (lit "Summarize.") (lit "hello") localSettings) as (_ & _ & Hresp).
    destruct (Hresp notFoundResponse eq_refl) as (Hfail & _).
    exact (Hfail ltac:(right; by vm_compute) (lit "model not found") eq_refl).
  - destruct (generateLocal_contract (λ _, Resolved bonjourResponse) None
                (lit "Translate.") (lit "hello") localSettings) as (_ & _ & Hresp).
    destruct (Hresp bonjourResponse eq_refl) as (_ & Hok).
    destruct (Hok ltac:(by vm_compute) _ eq_refl) as (Hcontent & _).
    exact (Hcontent _ _ _ (JString (lit "Bonjour")) eq_refl eq_refl eq_refl).
Defined.

(** C10 on the default sheet, for a row id that no row has. *)
Lemma out_of_range_on_default_sheet :
  updateCell (lit "row-404") 1 loadingUpdate (st_rows sheet) = st_rows sheet
  ∧ executeGeneration (render sheet) (lit "row-404") 1 None sheet = sheet
  ∧ regenerateCell (lit "row-404") 1 sheet = sheet.
Proof.
  assert (Hnone : find_row (lit "row-404") (st_rows sheet) = None) by (by vm_compute).
  apply (updateCell_and_executeGeneration_out_of_range (lit "row-404") 1 loadingUpdate
           (st_rows sheet) (render sheet) sheet).
  - intros row Hrow Hid.
    destruct (proj1 (find_row_None _ _) Hnone row Hrow Hid).
  - exact Hnone.
  - exact Hnone.
Defined.


(** ** Generation steps are local to one row, and touch values sparingly *)

Lemma cellwise_refl R rs :
  (∀ id j c, R id j c c) → cellwise R rs rs.
Proof.
  intros HR. split; [done |]. intros i row Hrow. exists row. repeat split; [done.. |].
  intros j cell Hcell. by exists cell.
Qed.

Lemma cellwise_trans R xs ys zs :
  (∀ id j a b c, R id j a b → R id j b c → R id j a c) →
  cellwise R xs ys → cellwise R ys zs → cellwise R xs zs.
Proof.
  intros HR [Hl1 H1] [Hl2 H2]. split; [congruence |].
  intros i row Hrow.
  destruct (H1 i row Hrow) as (row1 & Hrow1 & Hid1 & Hlen1 & Hc1).
  destruct (H2 i row1 Hrow1) as (row2 & Hrow2 & Hid2 & Hlen2 & Hc2).
  exists row2. repeat split; [done | congruence | congruence |].
  intros j cell Hcell.
  destruct (Hc1 j cell Hcell) as (c1 & Hcell1 & HR1).
  destruct (Hc2 j c1 Hcell1) as (c2 & Hcell2 & HR2).
  exists c2. split; [done |]. rewrite Hid1 in HR2. by eapply HR.
Qed.

Lemma cellwise_mono (R R' : jsstring → nat → CellData → CellData → Prop) xs ys :
  (∀ id j a b, R id j a b → R' id j a b) → cellwise R xs ys → cellwise R' xs ys.
Proof.
  intros HR [Hl H]. split; [done |]. intros i row Hrow.
  destruct (H i row Hrow) as (row' & Hrow' & Hid & Hlen & Hc).
  exists row'. repeat split; [done.. |]. intros j cell Hcell.
  destruct (Hc j cell Hcell) as (c' & Hc' & Hrel). exists c'. split; [done |]. by apply HR.
Qed.

Lemma cellwise_updateCell R rowId col updates rs :
  (∀ id j c, R id j c c) → (∀ c, R rowId col c (spread updates c)) →
  cellwise R rs (updateCell rowId col updates rs).
Proof.
  intros Hrefl Hupd. destruct (updateCell_touches_only rowId col updates rs) as [Hl H].
  split; [done |]. intros i row Hrow.
  destruct (H i row Hrow) as (row' & Hrow' & Hid & Hlen & Hc).
  exists row'. repeat split; [done.. |]. intros j cell Hcell.
  eexists. split; [by apply Hc |].
  destruct (decide _) as [[-> ->] |]; [apply Hupd | apply Hrefl].
Qed.

Lemma generation_frame_refl rowId V S id j c : generation_frame rowId V S id j c c.
Proof. by repeat split. Qed.

Lemma generation_frame_trans rowId V S id j a b c :
  generation_frame rowId V S id j a b → generation_frame rowId V S id j b c →
  generation_frame rowId V S id j a c.
Proof.
  intros (Hi1 & Hf1 & Hv1) (Hi2 & Hf2 & Hv2). repeat split.
  - congruence.
  - intros H. rewrite (Hf2 H). by apply Hf1.
  - intros H. rewrite (Hv2 H). by apply Hv1.
Qed.

Lemma generation_frame_mono rowId (V V' S S' : nat → Prop) id j a b :
  (∀ j, V j → V' j) → (∀ j, S j → S' j) →
  generation_frame rowId V S id j a b → generation_frame rowId V' S' id j a b.
Proof.
  intros HV HS (Hi & Hf & Hv). repeat split; [done | |].
  - intros [H | H]; apply Hf; [by left | right; intros ?; apply H; by apply HS].
  - intros H. apply Hv. intros ?. apply H. by apply HV.
Qed.

(** A status update (no [value], no [id]) at one column. *)
Lemma updateCell_status_frame rowId col updates rs :
  u_id updates = None → u_value updates = None →
  cellwise (generation_frame rowId (λ _, False) (λ j, j = col)) rs
    (updateCell rowId col updates rs).
Proof.
  intros Hid Hval. apply cellwise_updateCell.
  - intros. apply generation_frame_refl.
  - intros c. unfold generation_frame, spread. rewrite Hid, Hval. simpl.
    split; [done |]. split; [| done]. intros [H | H]; by destruct H.
Qed.

Lemma executeGeneration_frame env rowId target directInputVal w :
  cellwise (generation_frame rowId (λ _, False) (λ j, j = target))
    (st_rows w) (st_rows (executeGeneration env rowId target directInputVal w)).
Proof.
  assert (Hrefl : cellwise (generation_frame rowId (λ _, False) (λ j, j = target))
                    (st_rows w) (st_rows w)).
  { apply cellwise_refl. intros. apply generation_frame_refl. }
  unfold executeGeneration.
  destruct (headers env !! target) as [h|]; [| done].
  destruct (isInput h); [done |].
  destruct (determineSource env rowId h directInputVal) as [s| |]; [| | done].
  - destruct (negb (truthy (trim s))); [done |]. simpl.
    by apply updateCell_status_frame.
  - simpl. by apply updateCell_status_frame.
Qed.

Lemma forEach_executeGeneration_frame env rowId directInputVal
    (deps : list (nat * ColumnHeader)) w :
  cellwise (generation_frame rowId (λ _, False) (λ j, j ∈ deps.*1))
    (st_rows w)
    (st_rows (foldl (λ w' dep, executeGeneration env rowId dep.1 directInputVal w') w deps)).
Proof.
  revert w. induction deps as [|dep deps IH]; intros w.
  - apply cellwise_refl. intros. apply generation_frame_refl.
  - simpl. eapply cellwise_trans; [apply generation_frame_trans | |].
    + eapply cellwise_mono; [| apply (executeGeneration_frame env rowId dep.1 directInputVal w)].
      intros id j a b. apply generation_frame_mono; [done |].
      intros j' ->. by left.
    + eapply cellwise_mono; [| apply IH].
      intros id j a b. apply generation_frame_mono; [done |].
      intros j' Hj. by right.
Qed.


Lemma executeGeneration_keeps_sheet env rowId target directInputVal w :
  st_headers (executeGeneration env rowId target directInputVal w) = st_headers w
  ∧ st_settings (executeGeneration env rowId target directInputVal w) = st_settings w.
Proof.
  unfold executeGeneration.
  destruct (headers env !! target) as [h|]; [| done].
  destruct (isInput h); [done |].
  destruct (determineSource env rowId h directInputVal) as [s| |]; [| done..].
  by destruct (negb (truthy (trim s))).
Qed.

Lemma forEach_executeGeneration_keeps_sheet env rowId directInputVal
    (deps : list (nat * ColumnHeader)) w :
  st_headers (foldl (λ w' dep, executeGeneration env rowId dep.1 directInputVal w') w deps)
    = st_headers w
  ∧ st_settings (foldl (λ w' dep, executeGeneration env rowId dep.1 directInputVal w') w deps)
    = st_settings w.
Proof.
  revert w. induction deps as [|dep deps IH]; intros w; [done |].
  simpl. destruct (IH (executeGeneration env rowId dep.1 directInputVal w)) as [-> ->].
  apply executeGeneration_keeps_sheet.
Qed.

Lemma resume_frame a o w :
  cellwise
    (generation_frame (a_rowId a) (λ j, j = a_targetColIndex a)
       (λ j, j = a_targetColIndex a
             ∨ j ∈ (dependents (headers (a_env a)) (col_id (a_targetHeader a))).*1))
    (st_rows w) (st_rows (resume a o w)).
Proof.
  destruct o as [result | message]; simpl.
  - eapply cellwise_trans; [apply generation_frame_trans | |].
    + apply (cellwise_updateCell _ (a_rowId a) (a_targetColIndex a) (successUpdate result)).
      * intros. apply generation_frame_refl.
      * intros c. split; [done |].
        split; [intros [H | H]; destruct H; [done | by left] |].
        intros H. by destruct H.
    + eapply cellwise_mono;
        [| apply (forEach_executeGeneration_frame (a_env a) (a_rowId a) (Some result))].
      intros id j x y. apply generation_frame_mono; [done |]. intros j' Hj. by right.
  - eapply cellwise_mono;
      [| apply (updateCell_status_frame (a_rowId a) (a_targetColIndex a) (errorUpdate message));
         done].
    intros id j x y. apply generation_frame_mono; [done |]. intros j' ->. by left.
Qed.

Lemma resume_keeps_sheet a o w :
  st_headers (resume a o w) = st_headers w ∧ st_settings (resume a o w) = st_settings w.
Proof.
  destruct o as [result | message]; [| done]. simpl.
  destruct (forEach_executeGeneration_keeps_sheet (a_env a) (a_rowId a) (Some result)
              (dependents (headers (a_env a)) (col_id (a_targetHeader a)))
              (setRows (updateCell (a_rowId a) (a_targetColIndex a) (successUpdate result)) w))
    as [-> ->].
  done.
Qed.

(** X1. Committing a cell and regenerating a cell write no value: every
    cell of the sheet keeps its value and its id, the rows keep their ids,
    order and number of cells, and the only cells whose status may change
    are, in the rows named [rowId], the cells of the committed column's
    direct dependents (for a commit) or the target cell (for a
    regeneration).  Headers and settings are not touched. *)
Theorem commit_and_regenerate_write_no_value
    (rowId : jsstring) (colIndex : nat) (text : jsstring) (w : World) :
  cellwise
    (generation_frame rowId (λ _, False)
       (λ j, ∃ currentHeader, st_headers w !! colIndex = Some currentHeader
             ∧ j ∈ (dependents (st_headers w) (col_id currentHeader)).*1))
    (st_rows w) (st_rows (handleCellBlur rowId colIndex text w))
  ∧ cellwise (generation_frame rowId (λ _, False) (λ j, j = colIndex))
      (st_rows w) (st_rows (regenerateCell rowId colIndex w))
  ∧ st_headers (handleCellBlur rowId colIndex text w) = st_headers w
  ∧ st_settings (handleCellBlur rowId colIndex text w) = st_settings w
  ∧ st_headers (regenerateCell rowId colIndex w) = st_headers w
  ∧ st_settings (regenerateCell rowId colIndex w) = st_settings w.
Proof.
  split; [| split; [apply executeGeneration_frame |]].
  - unfold handleCellBlur. destruct (st_headers w !! colIndex) as [cur|].
    + eapply cellwise_mono;
        [| apply (forEach_executeGeneration_frame (render w) rowId (Some text))].
      intros id j x y. apply generation_frame_mono; [done |]. intros j' Hj. by exists cur.
    + apply cellwise_refl. intros. apply generation_frame_refl.
  - unfold handleCellBlur, regenerateCell.
    split; [| split]; [| | apply executeGeneration_keeps_sheet].
    + destruct (st_headers w !! colIndex); [| done].
      apply forEach_executeGeneration_keeps_sheet.
    + destruct (st_headers w !! colIndex); [| done].
      apply forEach_executeGeneration_keeps_sheet.
Qed.

(** X2. The settlement of a pending call, whatever its outcome, is local:
    rows keep their ids, order and number of cells and cells keep their
    ids; rows not named by the call are untouched; in the rows it names,
    only the target cell's value may change, and only the target cell and
    the cells of the target's direct dependents may change at all.
    Headers and settings are not touched. *)
Theorem settle_is_local (k : nat) (o : Settled) (a : Activation) (w : World) :
  inflight w !! k = Some a →
  cellwise
    (generation_frame (a_rowId a) (λ j, j = a_targetColIndex a)
       (λ j, j = a_targetColIndex a
             ∨ j ∈ (dependents (headers (a_env a)) (col_id (a_targetHeader a))).*1))
    (st_rows w) (st_rows (settle k o w))
  ∧ st_headers (settle k o w) = st_headers w
  ∧ st_settings (settle k o w) = st_settings w.
Proof.
  intros Ha. unfold settle. rewrite Ha.
  split; [apply (resume_frame a o (setInflight (delete k) w)) |].
  apply (resume_keeps_sheet a o (setInflight (delete k) w)).
Qed.


Lemma forEach_executeGeneration_blank env rowId text (deps : list (nat * ColumnHeader)) w :
  trim text = [] →
  foldl (λ w' dep, executeGeneration env rowId dep.1 (Some text) w') w deps = w.
Proof.
  intros Ht. induction deps as [|dep deps IH]; [done |].
  simpl. by rewrite executeGeneration_direct_blank.
Qed.

Lemma resume_spawns a o w :
  inflight (resume a o w) = inflight w ++ spawned a o
  ∧ calls (resume a o w) = calls w ++ (call_of <$> spawned a o).
Proof.
  destruct o as [result | message]; simpl; [| by rewrite !app_nil_r].
  destruct (truthy (trim result)) eqn:Ht.
  - apply truthy_true_iff in Ht.
    destruct (forEach_executeGeneration (a_env a) (a_rowId a) result
                (dependents (headers (a_env a)) (col_id (a_targetHeader a)))
                (setRows (updateCell (a_rowId a) (a_targetColIndex a) (successUpdate result)) w)
                Ht) as (Hi & Hc & _).
    { intros dep. apply dependents_lookup. }
    split; [exact Hi | exact Hc].
  - apply truthy_false_iff in Ht. rewrite forEach_executeGeneration_blank by done.
    simpl. by rewrite !app_nil_r.
Qed.

Lemma spawned_targets_NoDup a o : NoDup (a_targetColIndex <$> spawned a o).
Proof.
  destruct o as [result | message]; simpl; [| constructor].
  destruct (truthy (trim result)); [| constructor].
  unfold issuedFor. rewrite <- list_fmap_compose.
  apply (sublist_NoDup _ (seq 0 (length (headers (a_env a))))); [apply NoDup_seq |].
  etransitivity; [| apply (dependents_index_order _ (col_id (a_targetHeader a)))].
  apply fmap_sublist, sublist_filter.
Qed.

(** X3. What the settlement of a pending call starts is fixed when that
    call was issued.  The settled call leaves the pending list, and the
    calls it starts (none on a rejection or a blank result) are appended
    to the pending list and to the call log; they are determined by the
    settled activation and the outcome alone, not by the headers, rows or
    settings the page has by then.  Each of them runs under the same
    closure (headers and settings) and for the same row as the settled
    call, targets a non-entry column of that closure whose source is the
    settled column, and has the result as its input; no column is started
    twice. *)
Theorem settle_continues_under_its_closure
    (k : nat) (o : Settled) (a : Activation) (w : World) :
  inflight w !! k = Some a →
  inflight (settle k o w) = delete k (inflight w) ++ spawned a o
  ∧ calls (settle k o w) = calls w ++ (call_of <$> spawned a o)
  ∧ Forall (λ a',
       a_env a' = a_env a ∧ a_rowId a' = a_rowId a
       ∧ o = Resolved (a_sourceValue a')
       ∧ trim (a_sourceValue a') ≠ []
       ∧ headers (a_env a) !! a_targetColIndex a' = Some (a_targetHeader a')
       ∧ isInput (a_targetHeader a') = false
       ∧ sourceColumnId (a_targetHeader a') = Some (col_id (a_targetHeader a))
       ∧ call_settings (call_of a') = settings (a_env a))
      (spawned a o)
  ∧ NoDup (a_targetColIndex <$> spawned a o).
Proof.
  intros Ha. unfold settle. rewrite Ha.
  destruct (resume_spawns a o (setInflight (delete k) w)) as [Hi Hc].
  split; [exact Hi |]. split; [exact Hc |].
  split; [| apply spawned_targets_NoDup].
  destruct o as [result | message]; simpl; [| constructor].
  destruct (truthy (trim result)) eqn:Ht; [| constructor].
  apply truthy_true_iff in Ht. unfold issuedFor. apply Forall_fmap, Forall_forall.
  intros [index h] Hdep. apply list_elem_of_filter in Hdep as [Hin Hdep].
  apply dependents_spec in Hdep as [Hh Hsrc]. simpl in *. done.
Qed.


(** ** The life of a generated cell *)

Lemma updateCell_cell rowId col updates rs i row j cell :
  rs !! i = Some row → cells row !! j = Some cell →
  updateCell rowId col updates rs !! i ≫= (λ row', cells row' !! j)
  = Some (if decide (row_id row = rowId ∧ j = col) then spread updates cell else cell).
Proof.
  intros Hrow Hcell.
  destruct (updateCell_touches_only rowId col updates rs) as [_ H].
  destruct (H i row Hrow) as (row' & -> & _ & _ & Hc). simpl. by apply Hc.
Qed.

Lemma cellwise_cell R before after i row j cell :
  cellwise R before after → before !! i = Some row → cells row !! j = Some cell →
  ∃ cell', after !! i ≫= (λ row', cells row' !! j) = Some cell' ∧ R (row_id row) j cell cell'.
Proof.
  intros [_ H] Hrow Hcell.
  destruct (H i row Hrow) as (row' & -> & _ & _ & Hc).
  destruct (Hc j cell Hcell) as (cell' & Hcell' & HR). by exists cell'.
Qed.

(** X4. A generation that is started ends.  When [executeGeneration]
    starts a call for a non-entry column (the resolved input is not
    blank), the target cell becomes loading with its error cleared and
    its value kept; when that call rejects, the cell becomes failed with
    the message and its value kept; when it resolves, the cell gets the
    result as value and becomes succeeded, provided the column is not its
    own source (otherwise it is loading again at once). *)
Theorem generation_lifecycle
    (env : Closure) (rowId : jsstring) (target : nat) (targetHeader : ColumnHeader)
    (directInputVal : option jsstring) (sourceValue : jsstring) (w : World)
    (i : nat) (row : RowData) (cell : CellData) :
  headers env !! target = Some targetHeader →
  isInput targetHeader = false →
  determineSource env rowId targetHeader directInputVal = SourceValue sourceValue →
  trim sourceValue ≠ [] →
  st_rows w !! i = Some row → row_id row = rowId → cells row !! target = Some cell →
  cell_at i target (executeGeneration env rowId target directInputVal w)
    = Some {| cell_id := cell_id cell; value := value cell; status := LOADING;
              errorMessage := None |}
  ∧ (∀ message,
       cell_at i target
         (settle (length (inflight w)) (Rejected message)
            (executeGeneration env rowId target directInputVal w))
       = Some {| cell_id := cell_id cell; value := value cell; status := ERROR;
                 errorMessage := message |})
  ∧ (∀ result,
       sourceColumnId targetHeader ≠ Some (col_id targetHeader) →
       cell_at i target
         (settle (length (inflight w)) (Resolved result)
            (executeGeneration env rowId target directInputVal w))
       = Some {| cell_id := cell_id cell; value := result; status := SUCCESS;
                 errorMessage := None |}).
Proof.
  intros Hh Hin Hsrc Ht Hrow Hid Hcell.
  assert (Hexec : executeGeneration env rowId target directInputVal w
                  = await_generateContent
                      {| a_env := env; a_rowId := rowId; a_targetColIndex := target;
                         a_targetHeader := targetHeader; a_sourceValue := sourceValue |}
                      (setRows (updateCell rowId target loadingUpdate) w)).
  { unfold executeGeneration. rewrite Hh, Hin, Hsrc.
    apply truthy_true_iff in Ht. by rewrite Ht. }
  rewrite Hexec. clear Hexec.
  assert (Hloading : updateCell rowId target loadingUpdate (st_rows w) !! i
                     ≫= (λ row', cells row' !! target)
                     = Some {| cell_id := cell_id cell; value := value cell;
                               status := LOADING; errorMessage := None |}).
  { rewrite (updateCell_cell _ _ _ _ i row target cell) by done.
    by rewrite decide_True. }
  split; [exact Hloading |].
  unfold settle. simpl. rewrite list_lookup_middle by done.
  destruct (updateCell rowId target loadingUpdate (st_rows w) !! i) as [row1|] eqn:Hrow1;
    [| done].
  simpl in Hloading.
  assert (Hid1 : row_id row1 = rowId).
  { destruct (updateCell_touches_only rowId target loadingUpdate (st_rows w)) as [_ H].
    destruct (H i row Hrow) as (row' & Hrow' & Hid' & _). congruence. }
  split.
  - intros message. unfold cell_at. simpl.
    rewrite (updateCell_cell _ _ _ _ i row1 target _ Hrow1 Hloading).
    by rewrite decide_True.
  - intros result Hself. unfold cell_at.
    pose proof (forEach_executeGeneration_frame env rowId (Some result)
                  (dependents (headers env) (col_id targetHeader))
                  (setRows (updateCell rowId target (successUpdate result))
                     (setInflight (delete (length (inflight w)))
                        (await_generateContent
                           {| a_env := env; a_rowId := rowId; a_targetColIndex := target;
                              a_targetHeader := targetHeader; a_sourceValue := sourceValue |}
                           (setRows (updateCell rowId target loadingUpdate) w)))))
      as Hframe.
    simpl in Hframe.
    destruct (updateCell rowId target (successUpdate result)
                (updateCell rowId target loadingUpdate (st_rows w)) !! i)
      as [row2|] eqn:Hrow2.
    2:{ apply lookup_ge_None in Hrow2. apply lookup_lt_Some in Hrow1.
        unfold updateCell in *. rewrite !length_fmap in *. lia. }
    pose proof (updateCell_cell rowId target (successUpdate result) _ i row1 target _
                  Hrow1 Hloading) as Hcell2.
    rewrite Hrow2 in Hcell2. simpl in Hcell2. rewrite decide_True in Hcell2 by done.
    destruct (cellwise_cell _ _ _ i row2 target _ Hframe Hrow2 Hcell2)
      as (cell' & Hcell' & (_ & Hsame & _)).
    simpl. rewrite Hcell'. f_equal. rewrite Hsame; [done |].
    right. intros Hdep. apply dependents_index_spec in Hdep as (h & Hh' & Hsrc').
    rewrite Hh in Hh'. by simplify_eq.
Qed.


(** ** Invariants of the page *)

Lemma lockstep_cellwise R w w' :
  st_headers w' = st_headers w → cellwise R (st_rows w) (st_rows w') →
  lockstep w → lockstep w'.
Proof.
  unfold lockstep. intros Hh [Hlen H] Hlock. rewrite Hh.
  apply Forall_lookup. intros i row' Hrow'.
  destruct (st_rows w !! i) as [row|] eqn:Hrow.
  - destruct (H i row Hrow) as (row1 & Hrow1 & _ & Hcells & _).
    rewrite Hrow' in Hrow1. simplify_eq. rewrite Hcells.
    by apply (proj1 (Forall_lookup _ _) Hlock i row).
  - apply lookup_ge_None in Hrow. apply lookup_lt_Some in Hrow'. lia.
Qed.

Lemma lockstep_addColumn now w : lockstep w → lockstep (addColumn now w).
Proof.
  unfold lockstep. intros Hlock. simpl. rewrite Forall_fmap.
  eapply Forall_impl; [exact Hlock |]. intros row Hrow. simpl in *.
  rewrite !length_app, Hrow. done.
Qed.

Lemma lockstep_removeColumn index w : lockstep w → lockstep (removeColumn index w).
Proof.
  unfold lockstep, removeColumn. intros Hlock.
  destruct (decide (index = 0)); [done |]. simpl. rewrite Forall_fmap.
  eapply Forall_impl; [exact Hlock |]. intros row Hrow. simpl in *.
  rewrite !filter_index_delete.
  destruct (decide (index < length (cells row))) as [Hlt | Hge].
  - rewrite !length_delete by (apply lookup_lt_is_Some; lia). lia.
  - rewrite !delete_beyond by lia. done.
Qed.

Lemma lockstep_addRow now nowCell w : lockstep w → lockstep (addRow now nowCell w).
Proof.
  unfold lockstep. intros Hlock. simpl. apply Forall_app. split; [done |].
  constructor; [| constructor]. simpl. by rewrite length_imap.
Qed.

Lemma lockstep_removeRow rowId w : lockstep w → lockstep (removeRow rowId w).
Proof.
  unfold lockstep. intros Hlock. simpl. apply Forall_forall. intros row Hrow.
  apply list_elem_of_filter in Hrow as [_ Hrow].
  by apply (proj1 (Forall_forall _ _) Hlock).
Qed.

Lemma withField_isInput field value h h' :
  withField field value h = Some h' → isInput h' = isInput h.
Proof. destruct field; simpl; intros [= <-]; done. Qed.

Lemma handleHeaderChange_Some index field value w w' :
  handleHeaderChange index field value w = Some w' →
  ∃ h h', st_headers w !! index = Some h ∧ withField field value h = Some h'
          ∧ w' = setHeaders (λ prev, <[index := h']> prev) w.
Proof.
  unfold handleHeaderChange. destruct (st_headers w !! index) as [h|]; [| done].
  destruct (withField field value h) as [h'|] eqn:Hf; [| done].
  intros [= <-]. by exists h, h'.
Qed.

Lemma entry_first_insert index h h' hs :
  hs !! index = Some h → isInput h' = isInput h →
  entry_first hs → entry_first (<[index := h']> hs).
Proof.
  intros Hh Hin (h0 & rest & -> & Hin0 & Hrest). destruct index as [|index]; simpl in *.
  - simplify_eq. exists h', rest. repeat split; [congruence | done].
  - exists h0, (<[index := h']> rest). repeat split; [done |].
    apply Forall_insert; [done |].
    rewrite Hin. by apply (proj1 (Forall_lookup _ _) Hrest index h).
Qed.

Lemma entry_first_addColumn now w :
  entry_first (st_headers w) → entry_first (st_headers (addColumn now w)).
Proof.
  intros (h0 & rest & Hhs & Hin0 & Hrest). simpl. rewrite Hhs.
  eexists h0, (rest ++ [_]). split; [reflexivity |]. split; [done |].
  apply Forall_app. split; [done |]. by repeat constructor.
Qed.

Lemma entry_first_removeColumn index w :
  entry_first (st_headers w) → entry_first (st_headers (removeColumn index w)).
Proof.
  intros (h0 & rest & Hhs & Hin0 & Hrest). unfold removeColumn.
  destruct (decide (index = 0)) as [| Hne]; [by exists h0, rest |].
  simpl. rewrite filter_index_delete, Hhs.
  destruct index as [|index]; [done |]. simpl.
  exists h0, (delete index rest). repeat split; [done |].
  apply Forall_forall. intros h Hh.
  apply (proj1 (Forall_forall _ _) Hrest).
  eapply (sublist_subseteq (delete index rest)); [apply sublist_delete | done].
Qed.

Lemma executeGeneration_issues_well env rowId target directInputVal w :
  entry_first (headers env) →
  Forall well_issued (inflight w) →
  Forall (λ c, trim (call_userPrompt c) ≠ []) (calls w) →
  Forall well_issued (inflight (executeGeneration env rowId target directInputVal w))
  ∧ Forall (λ c, trim (call_userPrompt c) ≠ [])
      (calls (executeGeneration env rowId target directInputVal w)).
Proof.
  intros Henv Hi Hc. unfold executeGeneration.
  destruct (headers env !! target) as [h|] eqn:Hh; [| done].
  destruct (isInput h) eqn:Hin; [done |].
  destruct (determineSource env rowId h directInputVal) as [s| |]; [| done..].
  destruct (truthy (trim s)) eqn:Ht; [| done]. simpl.
  apply truthy_true_iff in Ht.
  split; apply Forall_app; (split; [done |]); by repeat constructor.
Qed.

Lemma forEach_executeGeneration_issues_well env rowId directInputVal
    (deps : list (nat * ColumnHeader)) w :
  entry_first (headers env) →
  Forall well_issued (inflight w) →
  Forall (λ c, trim (call_userPrompt c) ≠ []) (calls w) →
  Forall well_issued
    (inflight (foldl (λ w' dep, executeGeneration env rowId dep.1 directInputVal w') w deps))
  ∧ Forall (λ c, trim (call_userPrompt c) ≠ [])
      (calls (foldl (λ w' dep, executeGeneration env rowId dep.1 directInputVal w') w deps)).
Proof.
  intros Henv. revert w. induction deps as [|dep deps IH]; intros w Hi Hc; [done |].
  simpl. destruct (executeGeneration_issues_well env rowId dep.1 directInputVal w Henv Hi Hc).
  by apply IH.
Qed.

Lemma sound_executor_step w w' R :
  st_headers w' = st_headers w → cellwise R (st_rows w) (st_rows w') →
  Forall well_issued (inflight w') →
  Forall (λ c, trim (call_userPrompt c) ≠ []) (calls w') →
  sound w → sound w'.
Proof.
  intros Hh Hrows Hi Hc (Hlock & Hentry & _ & _).
  split; [by eapply lockstep_cellwise |]. split; [by rewrite Hh |]. done.
Qed.

Lemma sound_settle k o w : sound w → sound (settle k o w).
Proof.
  intros Hs. destruct (inflight w !! k) as [a|] eqn:Ha;
    [| unfold settle; by rewrite Ha].
  pose proof Hs as (_ & _ & Hi & Hc).
  assert (Ha' : well_issued a) by (by apply (proj1 (Forall_lookup _ _) Hi k a)).
  destruct (resume_keeps_sheet a o (setInflight (delete k) w)) as [Hh _].
  eapply (sound_executor_step w); [| | | | exact Hs].
  - unfold settle. rewrite Ha. exact Hh.
  - unfold settle. rewrite Ha. apply (resume_frame a o (setInflight (delete k) w)).
  - unfold settle. rewrite Ha. destruct o as [result | message]; simpl.
    + apply forEach_executeGeneration_issues_well; [apply Ha' | | done].
      simpl. apply Forall_forall. intros x Hx.
      apply (proj1 (Forall_forall _ _) Hi).
      eapply (sublist_subseteq (delete k (inflight w))); [apply sublist_delete | done].
    + apply Forall_forall. intros x Hx.
      apply (proj1 (Forall_forall _ _) Hi).
      eapply (sublist_subseteq (delete k (inflight w))); [apply sublist_delete | done].
  - unfold settle. rewrite Ha. destruct o as [result | message]; simpl; [| done].
    apply forEach_executeGeneration_issues_well; [apply Ha' | | done].
    simpl. apply Forall_forall. intros x Hx.
    apply (proj1 (Forall_forall _ _) Hi).
    eapply (sublist_subseteq (delete k (inflight w))); [apply sublist_delete | done].
Qed.

Lemma sound_structural w w' :
  lockstep w' → entry_first (st_headers w') →
  inflight w' = inflight w → calls w' = calls w → sound w → sound w'.
Proof.
  intros Hlock Hentry Hi Hc (_ & _ & Hi' & Hc'). rewrite <- Hi, <- Hc in *. done.
Qed.

Lemma sound_react e p : sound (world p) → sound (world (react e p)).
Proof.
  intros Hs. pose proof Hs as (Hlock & Hentry & Hi & Hc).
  destruct e as [rowId colIndex text | rowId colIndex text | rowId colIndex
                 | now nowCell | rowId | now | index | index field value | k o
                 | | | e |]; simpl.
  - eapply (sound_executor_step (world p)); [| | exact Hi | exact Hc | exact Hs]; [done |].
    eapply (cellwise_updateCell (λ _ _ _ _, True)); done.
  - unfold handleCellBlur. destruct (st_headers (world p) !! colIndex) as [cur|]; [| done].
    destruct (forEach_executeGeneration_keeps_sheet (render (world p)) rowId (Some text)
                (dependents (st_headers (world p)) (col_id cur)) (world p)) as [Hh _].
    destruct (forEach_executeGeneration_issues_well (render (world p)) rowId (Some text)
                (dependents (st_headers (world p)) (col_id cur)) (world p) Hentry Hi Hc).
    eapply (sound_executor_step (world p)); [exact Hh | | done | done | exact Hs].
    apply forEach_executeGeneration_frame.
  - unfold regenerateCell.
    destruct (executeGeneration_keeps_sheet (render (world p)) rowId colIndex None (world p))
      as [Hh _].
    destruct (executeGeneration_issues_well (render (world p)) rowId colIndex None (world p)
                Hentry Hi Hc).
    eapply (sound_executor_step (world p)); [exact Hh | | done | done | exact Hs].
    apply executeGeneration_frame.
  - eapply (sound_structural (world p)); [by apply lockstep_addRow | done | done | done | exact Hs].
  - eapply (sound_structural (world p)); [by apply lockstep_removeRow | done | done | done | exact Hs].
  - eapply (sound_structural (world p));
      [by apply lockstep_addColumn | by apply entry_first_addColumn | done | done | exact Hs].
  - eapply (sound_structural (world p));
      [by apply lockstep_removeColumn | by apply entry_first_removeColumn | | | exact Hs];
      unfold removeColumn; by destruct (decide (index = 0)).
  - destruct (handleHeaderChange index field value (world p)) as [w'|] eqn:Hw; [| done].
    apply handleHeaderChange_Some in Hw as (h & h' & Hh & Hf & ->). simpl.
    eapply (sound_structural (world p)); [| | done | done | exact Hs].
    + unfold lockstep in *. simpl. by rewrite length_insert.
    + simpl. eapply entry_first_insert; [done | by eapply withField_isInput | done].
  - by apply sound_settle.
  - by destruct (isSettingsOpen p).
  - by destruct (isSettingsOpen p).
  - by destruct (isSettingsOpen p).
  - destruct (isSettingsOpen p); [| done]. simpl.
    eapply (sound_structural (world p)); [| | | | exact Hs]; done.
Qed.

Lemma sound_run es p : sound (world p) → sound (world (run es p)).
Proof.
  revert p. induction es as [|e es IH]; intros p Hs; [done |].
  simpl. apply IH. by apply sound_react.
Qed.

Lemma sound_initial now : sound (world (initialPage now)).
Proof.
  split; [repeat constructor |]. split; [| by split].
  eexists _, _. split; [reflexivity |]. split; [done |]. by repeat constructor.
Qed.


(** X5. Along every sequence of events from the initial page, rows and
    headers stay in lockstep: whatever the user types, commits,
    regenerates, adds, removes or edits, and however the pending calls
    settle, every row has exactly one cell per header. *)
Theorem page_keeps_lockstep (now : nat → N) (es : list Event) :
  lockstep (world (run es (initialPage now))).
Proof. apply (sound_run es (initialPage now) (sound_initial now)). Qed.

(** X6. Along every sequence of events from the initial page, the sheet
    has a first header, it is the entry column, and no other header is
    one: no event removes the entry column, turns it into a generated
    column, or makes a second entry column. *)
Theorem page_keeps_entry_column_first (now : nat → N) (es : list Event) :
  ∃ h0 rest,
    st_headers (world (run es (initialPage now))) = h0 :: rest
    ∧ isInput h0 = true
    ∧ Forall (λ h, isInput h = false) rest.
Proof. apply (sound_run es (initialPage now) (sound_initial now)). Qed.

(** X7. Along every sequence of events from the initial page, the
    adapter is never called with an empty or white-space user prompt, and
    every pending call is for a column that is not the entry column (its
    target index is not 0, and its header is the non-entry header at that
    index in its closure) and has a non-blank input. *)
Theorem page_never_calls_adapter_on_blank_or_entry (now : nat → N) (es : list Event) :
  Forall (λ c, trim (call_userPrompt c) ≠ []) (calls (world (run es (initialPage now))))
  ∧ Forall (λ a,
       a_targetColIndex a ≠ 0
       ∧ headers (a_env a) !! a_targetColIndex a = Some (a_targetHeader a)
       ∧ isInput (a_targetHeader a) = false
       ∧ trim (a_sourceValue a) ≠ [])
      (inflight (world (run es (initialPage now)))).
Proof.
  destruct (sound_run es (initialPage now) (sound_initial now)) as (_ & _ & Hi & Hc).
  split; [exact Hc |]. eapply Forall_impl; [exact Hi |].
  intros a ((h0 & rest & Hhs & Hin0 & _) & Hh & Hin & Ht). repeat split; try done.
  intros H0. rewrite H0, Hhs in Hh. simpl in Hh. congruence.
Qed.

Lemma cellwise_entry_values rowId (V S : nat → Prop) before after w w' :
  st_rows w = before → st_rows w' = after →
  cellwise (generation_frame rowId V S) before after → ¬ V 0 →
  entry_values w' = entry_values w.
Proof.
  intros <- <- [Hlen H] HV. unfold entry_values. apply list_eq. intros i.
  rewrite !list_lookup_fmap.
  destruct (st_rows w !! i) as [row|] eqn:Hrow.
  - destruct (H i row Hrow) as (row' & -> & Hid & Hcells & Hc). simpl. f_equal.
    rewrite Hid. f_equal.
    destruct (cells row !! 0) as [cell|] eqn:Hcell.
    + destruct (Hc 0 cell Hcell) as (cell' & -> & (_ & _ & Hval)). simpl. f_equal.
      by apply Hval.
    + apply lookup_ge_None in Hcell.
      rewrite (proj2 (lookup_ge_None (cells row') 0)) by lia. done.
  - apply lookup_ge_None in Hrow.
    rewrite (proj2 (lookup_ge_None (st_rows w') i)) by lia. done.
Qed.

(** X8. Generation never overwrites the user's input.  From any page
    reached from the initial one, an event other than typing in an entry
    cell, adding a row or removing a row leaves the value of the entry
    cell of every row as it was: commits, regenerations, the settlement of
    any pending call, column additions and removals and header edits do
    not write the entry column. *)
Theorem page_generation_never_writes_entry_column
    (now : nat → N) (es : list Event) (e : Event) :
  ¬ edits_entry_column e →
  entry_values (world (react e (run es (initialPage now))))
  = entry_values (world (run es (initialPage now))).
Proof.
  intros He.
  pose proof (sound_run es (initialPage now) (sound_initial now))
    as (Hlock & (h0 & rest & Hhs & _) & Hi & _).
  set (p := run es (initialPage now)) in *.
  destruct e as [rowId colIndex text | rowId colIndex text | rowId colIndex
                 | now' nowCell | rowId | now' | index | index field value | k o
                 | | | e |]; simpl.
  - destruct colIndex as [|colIndex]; [by destruct He |].
    eapply (cellwise_entry_values rowId (λ j, j = S colIndex) (λ j, j = S colIndex));
      [reflexivity | reflexivity | | done].
    apply cellwise_updateCell; [intros; apply generation_frame_refl |].
    intros c. split; [done |].
    split; [intros [H | H]; by destruct H | intros H; by destruct H].
  - unfold handleCellBlur. destruct (st_headers (world p) !! colIndex) as [cur|]; [| done].
    eapply cellwise_entry_values; [reflexivity | reflexivity | | ].
    + apply (forEach_executeGeneration_frame (render (world p)) rowId (Some text)).
    + tauto.
  - eapply cellwise_entry_values; [reflexivity | reflexivity | | ].
    + apply (executeGeneration_frame (render (world p)) rowId colIndex None (world p)).
    + tauto.
  - by destruct He.
  - by destruct He.
  - unfold entry_values. simpl. rewrite <- list_fmap_compose.
    apply list_fmap_ext. intros i row Hrow. simpl. f_equal.
    rewrite lookup_app_l; [done |].
    unfold lockstep in Hlock.
    rewrite (proj1 (Forall_lookup _ _) Hlock i row Hrow), Hhs. simpl. lia.
  - unfold removeColumn. destruct (decide (index = 0)); [done |].
    unfold entry_values. simpl. rewrite <- list_fmap_compose.
    apply list_fmap_ext. intros i row Hrow. simpl. f_equal.
    rewrite filter_index_delete, list_lookup_delete_lt by lia. done.
  - destruct (handleHeaderChange index field value (world p)) as [w'|] eqn:Hw; [| done].
    apply handleHeaderChange_Some in Hw as (h & h' & _ & _ & ->). done.
  - destruct (inflight (world p) !! k) as [a|] eqn:Ha; [| unfold settle; by rewrite Ha].
    destruct (proj1 (Forall_lookup _ _) Hi k a Ha)
      as ((a0 & arest & Hahs & Hain0 & _) & Hah & Hain & _).
    eapply cellwise_entry_values; [reflexivity | reflexivity | | ].
    + unfold settle. rewrite Ha. apply (resume_frame a o (setInflight (delete k) (world p))).
    + simpl. intros H0. rewrite <- H0, Hahs in Hah. simpl in Hah. congruence.
  - by destruct (isSettingsOpen p).
  - by destruct (isSettingsOpen p).
  - by destruct (isSettingsOpen p).
  - by destruct (isSettingsOpen p).
Qed.


(** ** Cycles run for ever, forward sheets come to rest *)

Lemma elem_of_delete_other {A} (l : list A) (k p : nat) x :
  l !! p = Some x → p ≠ k → x ∈ delete k l.
Proof.
  intros Hp Hne. apply list_elem_of_lookup.
  destruct (decide (p < k)) as [Hlt | Hge].
  - exists p. by rewrite list_lookup_delete_lt.
  - exists (p - 1). rewrite list_lookup_delete_ge by lia.
    by replace (S (p - 1)) with p by lia.
Qed.

Lemma settle_out_of_range k o w : inflight w !! k = None → settle k o w = w.
Proof. intros H. unfold settle. by rewrite H. Qed.

(** X9. Nothing guards against cycles.  When a pending call targets a
    column of a set of columns in which every column has a non-entry
    dependent in the set (a column that is its own source, or two columns
    that are each other's source), then however the pending calls are
    settled, as long as every answer is a non-blank text, some call of
    the set is still pending afterwards: the propagation never ends. *)
Theorem cycle_never_comes_to_rest
    (env : Closure) (loop : nat → Prop) (w : World) (sched : list (nat * Settled)) :
  feeds_itself env loop →
  (∃ a, a ∈ inflight w ∧ a_env a = env ∧ loop (a_targetColIndex a)
        ∧ headers env !! a_targetColIndex a = Some (a_targetHeader a)) →
  Forall (λ ko, ∃ result, ko.2 = Resolved result ∧ trim result ≠ []) sched →
  ∃ a, a ∈ inflight (settleAll sched w) ∧ a_env a = env ∧ loop (a_targetColIndex a)
       ∧ headers env !! a_targetColIndex a = Some (a_targetHeader a).
Proof.
  intros Hloop. revert w. induction sched as [|[k o] sched IH]; intros w Hpending Hsched.
  - exact Hpending.
  - apply Forall_cons in Hsched as [(result & Ho & Ht) Hsched]. simpl in Ho. subst o.
    simpl. apply IH; [| exact Hsched]. clear IH Hsched.
    destruct Hpending as (a & Ha & Henv & Hin & Hh).
    apply list_elem_of_lookup in Ha as [p Hp].
    destruct (inflight w !! k) as [a'|] eqn:Hk.
    2:{ rewrite settle_out_of_range by done. exists a. split; [| done].
        apply list_elem_of_lookup. by exists p. }
    unfold settle. rewrite Hk.
    destruct (resume_spawns a' (Resolved result) (setInflight (delete k) w)) as [-> _].
    simpl. destruct (decide (p = k)) as [-> | Hne].
    + rewrite Hp in Hk. simplify_eq.
      destruct (Hloop _ Hin) as (hi & j & hj & Hhi & Hj & Hhj & Hinj & Hsrc).
      rewrite Hh in Hhi. simplify_eq.
      exists {| a_env := a_env a'; a_rowId := a_rowId a'; a_targetColIndex := j;
                a_targetHeader := hj; a_sourceValue := result |}.
      split; [| done]. apply elem_of_app. right.
      apply truthy_true_iff in Ht. rewrite Ht. unfold issuedFor.
      apply list_elem_of_fmap. exists (j, hj). split; [done |].
      apply list_elem_of_filter. split; [done |]. by apply dependents_spec.
    + exists a. split; [| done]. apply elem_of_app. left.
      by apply (elem_of_delete_other _ k p).
Qed.

Lemma sum_list_with_delete {A} (f : A → nat) (l : list A) (k : nat) x :
  l !! k = Some x → sum_list_with f (delete k l) + f x = sum_list_with f l.
Proof.
  revert k. induction l as [|y l IH]; intros [|k] Hk; simpl in *; try done.
  - simplify_eq. lia.
  - rewrite <- (IH k Hk). lia.
Qed.

Lemma sum_list_with_filter_le {A} (f : A → nat) (P : A → Prop) `{!∀ x, Decision (P x)}
    (l : list A) :
  sum_list_with f (filter P l) ≤ sum_list_with f l.
Proof.
  induction l as [|x l IH]; [done |].
  rewrite filter_cons. destruct (decide (P x)); simpl; lia.
Qed.

Lemma sublist_seq_from (l : list nat) (a m b : nat) :
  l `sublist_of` seq a m → Forall (λ j, b ≤ j) l → a ≤ b →
  l `sublist_of` seq b (a + m - b).
Proof.
  revert a l. induction m as [|m IH]; intros a l Hsub Hl Hab.
  - apply sublist_nil_r in Hsub as ->. apply sublist_nil_l.
  - destruct (decide (a = b)) as [-> | Hne].
    + by replace (b + S m - b) with (S m) by lia.
    + simpl in Hsub. apply sublist_cons_r in Hsub as [Hsub | (l' & -> & Hsub)].
      * replace (a + S m - b) with (S a + m - b) by lia. apply IH; [done | done | lia].
      * apply Forall_cons in Hl as [Hl _]. lia.
Qed.

Lemma sum_pow_sublist (n : nat) (l : list nat) (a m : nat) :
  l `sublist_of` seq a m → a + m ≤ n →
  sum_list_with (λ j, 2 ^ (n - 1 - j)) l + 1 ≤ 2 ^ (n - a).
Proof.
  revert a l. induction m as [|m IH]; intros a l Hsub Hn.
  - apply sublist_nil_r in Hsub as ->. simpl.
    pose proof (Nat.pow_nonzero 2 (n - a)). lia.
  - simpl in Hsub.
    assert (Hpow : 2 ^ (n - a) = 2 * 2 ^ (n - S a)).
    { replace (n - a) with (S (n - S a)) by lia. by rewrite Nat.pow_succ_r'. }
    apply sublist_cons_r in Hsub as [Hsub | (l' & -> & Hsub)].
    + pose proof (IH (S a) l Hsub ltac:(lia)). lia.
    + pose proof (IH (S a) l' Hsub ltac:(lia)) as Hl'. simpl.
      replace (n - 1 - a) with (n - S a) by lia. lia.
Qed.

Lemma weight_pos a : 1 ≤ weight a.
Proof. unfold weight. pose proof (Nat.pow_nonzero 2 (length (headers (a_env a)) - 1 - a_targetColIndex a)). lia. Qed.

Lemma spawned_weight a o :
  chain_ready a →
  sum_list_with weight (spawned a o) + 1 ≤ weight a ∧ Forall chain_ready (spawned a o).
Proof.
  intros [Hfwd Hh].
  assert (Hnil : sum_list_with weight [] + 1 ≤ weight a ∧ Forall chain_ready [])
    by (split; [apply weight_pos | constructor]).
  destruct o as [result | message]; simpl; [| done].
  destruct (truthy (trim result)); [| done]. clear Hnil.
  unfold issuedFor. split.
  - set (n := length (headers (a_env a))).
    set (deps := dependents (headers (a_env a)) (col_id (a_targetHeader a))).
    transitivity (sum_list_with (λ j, 2 ^ (n - 1 - j)) deps.*1 + 1).
    + apply Nat.add_le_mono_r.
      transitivity (sum_list_with (λ dep : nat * ColumnHeader, 2 ^ (n - 1 - dep.1)) deps).
      * etransitivity; [| apply (sum_list_with_filter_le _ (λ dep, isInput dep.2 = false))].
        apply Nat.eq_le_incl. generalize (filter (λ dep, isInput dep.2 = false) deps).
        intros l. induction l as [|d l IHl]; [done |]. rewrite fmap_cons. simpl.
        by rewrite IHl.
      * apply Nat.eq_le_incl. generalize deps.
        intros l. induction l as [|d l IHl]; [done |]. rewrite fmap_cons. simpl.
        by rewrite IHl.
    + assert (Hlt : a_targetColIndex a < n) by (by apply lookup_lt_Some in Hh).
      unfold weight. fold n.
      replace (n - 1 - a_targetColIndex a) with (n - S (a_targetColIndex a)) by lia.
      apply (sum_pow_sublist n _ (S (a_targetColIndex a)) (n - S (a_targetColIndex a)));
        [| lia].
      replace (n - S (a_targetColIndex a)) with (0 + n - S (a_targetColIndex a)) by lia.
      apply sublist_seq_from; [apply dependents_index_order | | lia].
      apply Forall_forall. intros j Hj.
      apply dependents_index_spec in Hj as (hj & Hhj & Hsrc).
      by apply (Hfwd _ _ _ _ Hh Hhj Hsrc).
  - apply Forall_fmap, Forall_forall. intros [j hj] Hdep.
    apply list_elem_of_filter in Hdep as [_ Hdep].
    apply dependents_spec in Hdep as [Hhj _]. by split.
Qed.

Lemma settle_weight k o a w :
  Forall chain_ready (inflight w) → inflight w !! k = Some a →
  pending_weight (settle k o w) + 1 ≤ pending_weight w
  ∧ Forall chain_ready (inflight (settle k o w))
  ∧ length (calls (settle k o w)) + pending_weight (settle k o w)
      + length (inflight w)
    ≤ length (calls w) + pending_weight w + length (inflight (settle k o w)).
Proof.
  intros Hready Ha. unfold settle. rewrite Ha.
  destruct (resume_spawns a o (setInflight (delete k) w)) as [Hi Hc].
  destruct (spawned_weight a o) as [Hw Hsp];
    [by apply (proj1 (Forall_lookup _ _) Hready k a) |].
  unfold pending_weight. rewrite Hi, Hc. simpl.
  rewrite sum_list_with_app, !length_app, length_fmap.
  pose proof (sum_list_with_delete weight (inflight w) k a Ha).
  assert (Hlen : length (delete k (inflight w)) + 1 = length (inflight w)).
  { rewrite length_delete by (by rewrite Ha). apply lookup_lt_Some in Ha. lia. }
  split; [lia |]. split; [| lia].
  apply Forall_app. split; [by apply Forall_delete | done].
Qed.

Lemma pending_length_le_weight w : length (inflight w) ≤ pending_weight w.
Proof.
  unfold pending_weight. induction (inflight w) as [|a l IHl]; [done |].
  simpl. pose proof (weight_pos a). lia.
Qed.

Lemma drain_rests gen fuel w :
  Forall chain_ready (inflight w) → pending_weight w ≤ fuel →
  inflight (drain gen fuel w) = [].
Proof.
  revert w. induction fuel as [|fuel IH]; intros w Hready Hfuel.
  - simpl. pose proof (pending_length_le_weight w).
    destruct (inflight w); [done | simpl in *; lia].
  - simpl. destruct (inflight w) as [|a l] eqn:Hin; [done |].
    rewrite <- Hin in Hready.
    destruct (settle_weight 0 (gen (call_of a)) a w Hready) as (Hw & Hready' & _);
      [by rewrite Hin |].
    apply IH; [done | lia].
Qed.

(** X10. On a sheet whose columns all take their source from a column to
    their left, every propagation comes to rest.  With such pending
    calls, a schedule of settlements (each of a pending call, with any
    outcome) is no longer than the pending weight, which counts at most
    2^(columns to the right) per pending call; the adapter calls it
    issues are bounded likewise; and settling the oldest pending call
    first, whatever the adapter answers, leaves nothing pending after
    that many settlements. *)
Theorem forward_sheet_comes_to_rest
    (w : World) (sched : list (nat * Settled)) (gen : AdapterCall → Settled) :
  Forall chain_ready (inflight w) →
  effective sched w →
  length sched ≤ pending_weight w
  ∧ length (calls (settleAll sched w)) + length (inflight w)
    ≤ length (calls w) + pending_weight w
  ∧ inflight (drain gen (pending_weight w) w) = [].
Proof.
  intros Hready Heff.
  assert (Hsched : length sched + pending_weight (settleAll sched w) ≤ pending_weight w
                   ∧ length (calls (settleAll sched w))
                       + pending_weight (settleAll sched w) + length (inflight w)
                     ≤ length (calls w) + pending_weight w
                       + length (inflight (settleAll sched w))).
  { clear gen. revert w Hready Heff. induction sched as [|[k o] sched IH];
      intros w Hready Heff; [simpl; lia |].
    destruct Heff as [[a Ha] Heff]. simpl in *.
    destruct (settle_weight k o a w Hready Ha) as (Hw & Hready' & Hcalls).
    destruct (IH (settle k o w) Hready' Heff) as [IH1 IH2]. lia. }
  split; [lia |].
  split; [pose proof (pending_length_le_weight (settleAll sched w)); lia |].
  by apply drain_rests.
Qed.

Lemma forward_initialHeaders : forward initialHeaders.
Proof.
  intros i j hi hj Hi Hj Hsrc.
  destruct i as [|[|[|i]]]; destruct j as [|[|[|j]]]; simpl in *; simplify_eq;
    try lia; by vm_compute in Hsrc.
Qed.

Lemma forEach_direct_weight env rowId text ofId w :
  forward (headers env) → inflight w = [] →
  Forall chain_ready
    (inflight (foldl (λ w' dep, executeGeneration env rowId dep.1 (Some text) w') w
                 (dependents (headers env) ofId)))
  ∧ pending_weight (foldl (λ w' dep, executeGeneration env rowId dep.1 (Some text) w') w
                      (dependents (headers env) ofId))
    ≤ 2 ^ length (headers env).
Proof.
  intros Hfwd Hnil.
  destruct (decide (trim text = [])) as [Hblank | Ht].
  { rewrite forEach_executeGeneration_blank by done. unfold pending_weight. rewrite Hnil.
    split; [constructor | simpl; lia]. }
  destruct (forEach_executeGeneration env rowId text (dependents (headers env) ofId) w Ht)
    as (Hi & _).
  { intros dep. apply dependents_lookup. }
  simpl in Hi. unfold pending_weight. rewrite Hi, Hnil. simpl. split.
  - apply Forall_fmap, Forall_forall. intros [j hj] Hdep.
    apply list_elem_of_filter in Hdep as [_ Hdep].
    apply dependents_spec in Hdep as [Hhj _]. by split.
  - set (n := length (headers env)). set (deps := dependents (headers env) ofId).
    transitivity (sum_list_with (λ j, 2 ^ (n - 1 - j)) deps.*1).
    + transitivity (sum_list_with (λ dep : nat * ColumnHeader, 2 ^ (n - 1 - dep.1)) deps).
      * etransitivity; [| apply (sum_list_with_filter_le _ (λ dep, isInput dep.2 = false))].
        apply Nat.eq_le_incl. generalize (filter (λ dep, isInput dep.2 = false) deps).
        intros l. induction l as [|d l IHl]; [done |]. rewrite fmap_cons. simpl.
        by rewrite IHl.
      * apply Nat.eq_le_incl. generalize deps.
        intros l. induction l as [|d l IHl]; [done |]. rewrite fmap_cons. simpl.
        by rewrite IHl.
    + pose proof (sum_pow_sublist n deps.*1 0 n (dependents_index_order _ _) ltac:(lia)).
      replace (n - 0) with n in * by lia. lia.
Qed.

(** X11. A commit on a forward sheet comes to rest.  When every column
    of the sheet takes its source from a column to its left (as on the
    default sheet) and nothing is pending, then after a commit in any cell, settling the pending calls
    oldest first, whatever the adapter answers, leaves nothing pending
    after at most 2^(number of columns) settlements. *)
Theorem commit_on_forward_sheet_comes_to_rest
    (w : World) (rowId : jsstring) (colIndex : nat) (text : jsstring)
    (gen : AdapterCall → Settled) :
  forward (st_headers w) → inflight w = [] →
  inflight (drain gen (2 ^ length (st_headers w)) (handleCellBlur rowId colIndex text w)) = [].
Proof.
  intros Hfwd Hnil. unfold handleCellBlur.
  destruct (st_headers w !! colIndex) as [cur|].
  - destruct (forEach_direct_weight (render w) rowId text (col_id cur) w Hfwd Hnil)
      as [Hready Hweight].
    by apply drain_rests.
  - apply drain_rests; [by rewrite Hnil |].
    unfold pending_weight. rewrite Hnil. simpl. lia.
Qed.


(** ** How the operations compose *)

(** X12. Removing a column leaves its dependents dangling.  On a sheet
    whose column ids are distinct, once a column other than the first is
    removed, regenerating a cell of a column that had it as source marks
    that cell failed with the configuration-error message and issues no
    adapter call: the reference is neither repaired nor redirected. *)
Theorem removed_source_fails_regeneration
    (w : World) (index j : nat) (removed h : ColumnHeader) (rowId : jsstring) :
  NoDup (col_id <$> st_headers w) →
  index ≠ 0 → j ≠ index →
  st_headers w !! index = Some removed →
  st_headers w !! j = Some h →
  isInput h = false →
  sourceColumnId h = Some (col_id removed) →
  touches_only rowId (if decide (j < index) then j else j - 1)
    (λ cell, {| cell_id := cell_id cell; value := value cell; status := ERROR;
                errorMessage := Some invalidSourceMessage |})
    (st_rows (removeColumn index w))
    (st_rows (regenerateCell rowId (if decide (j < index) then j else j - 1)
                (removeColumn index w)))
  ∧ calls (regenerateCell rowId (if decide (j < index) then j else j - 1)
             (removeColumn index w)) = calls w
  ∧ inflight (regenerateCell rowId (if decide (j < index) then j else j - 1)
                (removeColumn index w)) = inflight w.
Proof.
  intros Hnodup Hidx Hj Hremoved Hh Hin Hsrc.
  set (j' := if decide (j < index) then j else j - 1).
  assert (Hw' : st_headers (removeColumn index w) = delete index (st_headers w)).
  { unfold removeColumn. rewrite decide_False by done. simpl. apply filter_index_delete. }
  assert (Hh' : delete index (st_headers w) !! j' = Some h).
  { unfold j'. destruct (decide (j < index)).
    - by rewrite list_lookup_delete_lt.
    - rewrite list_lookup_delete_ge by lia. by replace (S (j - 1)) with j by lia. }
  assert (Hnone : findIndex_id (Some (col_id removed)) (delete index (st_headers w)) = None).
  { apply findIndex_id_None. intros h1 Hh1 Heq.
    apply list_elem_of_lookup in Hh1 as [p Hp].
    assert (∃ q, q ≠ index ∧ st_headers w !! q = Some h1) as (q & Hq & Hq1).
    { destruct (decide (p < index)).
      - exists p. split; [lia |]. by rewrite list_lookup_delete_lt in Hp.
      - exists (S p). split; [lia |]. by rewrite list_lookup_delete_ge in Hp by lia. }
    apply Hq. apply (NoDup_lookup _ _ _ (col_id removed) Hnodup).
    + rewrite list_lookup_fmap, Hq1. simpl. congruence.
    + by rewrite list_lookup_fmap, Hremoved. }
  assert (Hcalls : calls (removeColumn index w) = calls w
                   ∧ inflight (removeColumn index w) = inflight w).
  { unfold removeColumn. by rewrite decide_False. }
  destruct Hcalls as [Hc Hi]. rewrite <- Hc, <- Hi.
  unfold regenerateCell, executeGeneration, determineSource. simpl.
  rewrite Hw', Hh', Hin, Hsrc, Hnone. split; [| done].
  exact (updateCell_touches_only rowId j' _ (st_rows (removeColumn index w))).
Qed.

(** X13. A column added with [addColumn] continues the chain.  On a
    sheet with at least one column, after [addColumn], committing a
    non-blank text in a cell of the column that was last issues a call
    for the new column, with that text as input, the default instruction
    as system prompt and the settings of the page. *)
Theorem added_column_continues_the_chain
    (w : World) (now : N) (lastHeader : ColumnHeader) (rowId text : jsstring) :
  last (st_headers w) = Some lastHeader →
  trim text ≠ [] →
  {| call_systemPrompt := lit "New system instruction...";
     call_userPrompt := text;
     call_settings := st_settings w |}
  ∈ calls (handleCellBlur rowId (length (st_headers w) - 1) text (addColumn now w)).
Proof.
  intros Hlast Ht. rewrite last_lookup, <- Nat.sub_1_r in Hlast.
  set (newHeader :=
         {| col_id := lit "col-" ++ decimal now;
            label := lit "Step " ++ decimal (N.of_nat (length (st_headers w)));
            systemPrompt := lit "New system instruction...";
            sourceColumnId := Some (col_id lastHeader); isInput := false |}).
  assert (Hhs : st_headers (addColumn now w) = st_headers w ++ [newHeader]).
  { simpl. by rewrite Hlast. }
  assert (Hset : st_settings (addColumn now w) = st_settings w) by done.
  remember (addColumn now w) as w1 eqn:Hw1. clear Hw1.
  unfold handleCellBlur. rewrite Hhs, lookup_app_l by (by apply lookup_lt_Some in Hlast).
  rewrite Hlast.
  destruct (forEach_executeGeneration (render w1) rowId text
              (dependents (st_headers w ++ [newHeader]) (col_id lastHeader)) w1 Ht)
    as (_ & Hc & _).
  { intros dep Hdep. change (headers (render w1)) with (st_headers w1). rewrite Hhs.
    by apply dependents_lookup in Hdep. }
  cbv zeta in Hc. rewrite Hc.
  apply elem_of_app. right. apply list_elem_of_fmap.
  exists {| a_env := render w1; a_rowId := rowId;
            a_targetColIndex := length (st_headers w); a_targetHeader := newHeader;
            a_sourceValue := text |}.
  split; [unfold call_of; simpl; by rewrite Hset |].
  apply list_elem_of_fmap. exists (length (st_headers w), newHeader).
  split; [done |]. apply list_elem_of_filter. split; [done |].
  apply dependents_spec. split; [| done].
  by rewrite lookup_app_r, Nat.sub_diag by lia.
Qed.

(** X14. A commit that has nothing to propagate does nothing.  Leaving a
    cell with an empty or white-space text, or leaving a cell of a column
    that no header names as its source, returns the page unchanged: no
    status change and no adapter call. *)
Theorem idle_commit_changes_nothing
    (rowId : jsstring) (colIndex : nat) (text : jsstring) (w : World) :
  trim text = []
  ∨ (∀ currentHeader h, st_headers w !! colIndex = Some currentHeader →
       h ∈ st_headers w → sourceColumnId h ≠ Some (col_id currentHeader)) →
  handleCellBlur rowId colIndex text w = w.
Proof.
  intros Hidle. unfold handleCellBlur.
  destruct (st_headers w !! colIndex) as [cur|] eqn:Hcur; [| done].
  destruct Hidle as [Hblank | Hnone].
  - by apply forEach_executeGeneration_blank.
  - destruct (dependents (st_headers w) (col_id cur)) as [|[j hj] deps] eqn:Hdeps; [done |].
    assert (Hin : (j, hj) ∈ dependents (st_headers w) (col_id cur))
      by (rewrite Hdeps; by left).
    apply dependents_spec in Hin as [Hhj Hsrc].
    destruct (Hnone cur hj eq_refl (list_elem_of_lookup_2 _ _ _ Hhj) Hsrc).
Qed.

(** X15. Choosing a source in a header makes the column a dependent of
    the chosen column and of no other.  After [handleHeaderChange] sets
    the [sourceColumnId] of the header at [index] to [sourceId], the
    dependents of a column id are the old ones without [index] when the
    id is not [sourceId], and with [index] when it is; nothing else of
    the page changes. *)
Theorem choosing_a_source_rewires_one_column
    (w w' : World) (index : nat) (sourceId : jsstring) :
  handleHeaderChange index K_sourceColumnId sourceId w = Some w' →
  (∀ ofId j,
     j ∈ (dependents (st_headers w') ofId).*1 ↔
     (j = index ∧ ofId = sourceId)
     ∨ (j ≠ index ∧ j ∈ (dependents (st_headers w) ofId).*1))
  ∧ length (st_headers w') = length (st_headers w)
  ∧ st_rows w' = st_rows w ∧ calls w' = calls w ∧ inflight w' = inflight w
  ∧ st_settings w' = st_settings w.
Proof.
  intros Hw. apply handleHeaderChange_Some in Hw as (h & h' & Hh & Hf & ->).
  simpl in Hf. simplify_eq. simpl. split; [| by rewrite length_insert].
  intros ofId j. rewrite !dependents_index_spec. split.
  - intros (hj & Hhj & Hsrc). destruct (decide (j = index)) as [-> | Hne].
    + rewrite list_lookup_insert_eq in Hhj by (by apply lookup_lt_Some in Hh).
      simplify_eq. simpl in Hsrc. left. split; [done | congruence].
    + rewrite list_lookup_insert_ne in Hhj by done. right. split; [done |]. by exists hj.
  - intros [[-> ->] | (Hne & hj & Hhj & Hsrc)].
    + eexists. split; [apply list_lookup_insert_eq; by apply lookup_lt_Some in Hh |].
      done.
    + exists hj. split; [| done]. by rewrite list_lookup_insert_ne.
Qed.


Lemma updateCell_overwrite rowId col u1 u2 rs :
  (∀ c, spread u2 (spread u1 c) = spread u2 c) →
  updateCell rowId col u2 (updateCell rowId col u1 rs) = updateCell rowId col u2 rs.
Proof.
  intros Hover. unfold updateCell. rewrite <- list_fmap_compose.
  apply list_fmap_ext. intros i row _. simpl.
  destruct (decide (row_id row ≠ rowId)) as [Hne | Heq].
  - by rewrite decide_True.
  - simpl. rewrite decide_False by done. f_equal.
    rewrite list_alter_alter_eq. apply list_alter_ext; [| done].
    intros c _. apply Hover.
Qed.

(** X16. The last settlement wins.  Two pending calls for the same cell
    of a column without dependents are not ordered or cancelled: when
    both resolve, the rows end as if only the call that settled last had
    run, whichever of the two that is. *)
Theorem last_settlement_wins
    (a1 a2 : Activation) (result1 result2 : jsstring) (w : World) :
  a_rowId a1 = a_rowId a2 →
  a_targetColIndex a1 = a_targetColIndex a2 →
  dependents (headers (a_env a1)) (col_id (a_targetHeader a1)) = [] →
  dependents (headers (a_env a2)) (col_id (a_targetHeader a2)) = [] →
  st_rows (resume a2 (Resolved result2) (resume a1 (Resolved result1) w))
    = st_rows (resume a2 (Resolved result2) w)
  ∧ st_rows (resume a1 (Resolved result1) (resume a2 (Resolved result2) w))
    = st_rows (resume a1 (Resolved result1) w).
Proof.
  intros Hrow Hcol Hd1 Hd2. simpl. rewrite Hd1, Hd2. simpl. rewrite Hrow, Hcol.
  split; by apply updateCell_overwrite.
Qed.

Lemma cellwise_frame_absent rowId (V S : nat → Prop) before after :
  cellwise (generation_frame rowId V S) before after →
  (∀ row, row ∈ before → row_id row ≠ rowId) →
  after = before.
Proof.
  intros [Hlen H] Habsent. apply list_eq. intros i.
  destruct (before !! i) as [row|] eqn:Hrow.
  - destruct (H i row Hrow) as (row' & -> & Hid & Hcells & Hc). f_equal.
    destruct row as [id cs], row' as [id' cs']. simpl in *. subst id'. f_equal.
    apply list_eq. intros j. destruct (cs !! j) as [cell|] eqn:Hcell.
    + destruct (Hc j cell Hcell) as (cell' & -> & (_ & Hsame & _)). f_equal.
      apply Hsame. left. apply (Habsent {| row_id := id; cells := cs |}).
      by apply list_elem_of_lookup_2 in Hrow.
    + apply lookup_ge_None in Hcell. apply lookup_ge_None. lia.
  - apply lookup_ge_None in Hrow. apply lookup_ge_None. lia.
Qed.

(** X17. A call that settles after its row was removed writes nothing.
    [removeRow] removes every row with the id; a call for that row that
    was pending stays pending, and when it settles, with any outcome, the
    rows are left as they are. *)
Theorem settlement_for_removed_row_writes_nothing
    (k : nat) (o : Settled) (a : Activation) (w : World) :
  inflight w !! k = Some a →
  find_row (a_rowId a) (st_rows (removeRow (a_rowId a) w)) = None
  ∧ inflight (removeRow (a_rowId a) w) = inflight w
  ∧ st_rows (settle k o (removeRow (a_rowId a) w)) = st_rows (removeRow (a_rowId a) w).
Proof.
  intros Ha.
  assert (Hgone : ∀ row, row ∈ st_rows (removeRow (a_rowId a) w) → row_id row ≠ a_rowId a).
  { intros row Hrow. simpl in Hrow. by apply list_elem_of_filter in Hrow as [? _]. }
  split; [by apply find_row_None |]. split; [done |].
  unfold settle. change (inflight (removeRow (a_rowId a) w)) with (inflight w). rewrite Ha.
  eapply cellwise_frame_absent; [| exact Hgone].
  apply (resume_frame a o (setInflight (delete k) (removeRow (a_rowId a) w))).
Qed.

(** ** More on the adapters *)

(** X18. The hosted provider.  [generateGemini] makes one SDK call, with
    the API key of the environment, the configured model name (or
    "gemini-2.5-flash" when none is configured), the user prompt as
    contents and the system prompt as system instruction, and its outcome
    depends on the SDK through that call only.  It resolves exactly when
    the SDK does with a non-empty text, and then with that text; when the
    SDK call fails it rejects with the SDK's message, or with "Failed to
    generate with Gemini" when the failure has none. *)
Theorem generateGemini_contract
    (sdk_generateContent : GeminiRequest → Completion (option jsstring))
    (API_KEY : option jsstring) (systemPrompt userPrompt : jsstring)
    (settings : AppSettings) :
  (apiKey (geminiRequest API_KEY systemPrompt userPrompt settings) = API_KEY
   ∧ model (geminiRequest API_KEY systemPrompt userPrompt settings)
     = (if decide (geminiModelName settings = []) then lit "gemini-2.5-flash"
        else geminiModelName settings)
   ∧ contents (geminiRequest API_KEY systemPrompt userPrompt settings) = userPrompt
   ∧ systemInstruction (geminiRequest API_KEY systemPrompt userPrompt settings)
     = systemPrompt)
  ∧ (∀ sdk',
       sdk' (geminiRequest API_KEY systemPrompt userPrompt settings)
         = sdk_generateContent (geminiRequest API_KEY systemPrompt userPrompt settings) →
       generateGemini sdk' API_KEY systemPrompt userPrompt settings
       = generateGemini sdk_generateContent API_KEY systemPrompt userPrompt settings)
  ∧ (∀ text,
       generateGemini sdk_generateContent API_KEY systemPrompt userPrompt settings
         = Resolved text
       ↔ sdk_generateContent (geminiRequest API_KEY systemPrompt userPrompt settings)
           = Resolved (Some text) ∧ text ≠ [])
  ∧ (∀ e,
       sdk_generateContent (geminiRequest API_KEY systemPrompt userPrompt settings)
         = Rejected e →
       generateGemini sdk_generateContent API_KEY systemPrompt userPrompt settings
       = Rejected (Some (orElse e (lit "Failed to generate with Gemini")))).
Proof.
  split; [| split; [| split]].
  - repeat split. unfold geminiRequest, orElse. simpl.
    by destruct (geminiModelName settings).
  - intros sdk' Hsame. unfold generateGemini, generateGemini_try. by rewrite Hsame.
  - intros text. unfold generateGemini, generateGemini_try.
    destruct (sdk_generateContent _) as [[[|c t]|]|e]; simpl; split;
      try done; try (intros [[=] ?]; done).
    + intros [= <-]. done.
    + intros [[= <-] _]. done.
  - intros e He. unfold generateGemini, generateGemini_try. by rewrite He.
Qed.

(** X19. The failures of the local provider.  When [fetch] itself fails,
    when the body of a non-2xx response cannot be read, when the body of
    a 2xx response does not parse, and when the parsed body is [null],
    [generateLocal] rejects with the message of that failure, or with
    "Failed to connect to Local LLM" when the failure has no message. *)
Theorem generateLocal_failures
    (fetch : Request → Completion Response) (nullReadMessage : option jsstring)
    (systemPrompt userPrompt : jsstring) (settings : AppSettings) :
  (∀ e,
     fetch (localRequest systemPrompt userPrompt settings) = Rejected e →
     generateLocal fetch nullReadMessage systemPrompt userPrompt settings
     = Rejected (Some (orElse e (lit "Failed to connect to Local LLM"))))
  ∧ (∀ response,
       fetch (localRequest systemPrompt userPrompt settings) = Resolved response →
       (∀ e, ok response = false → resp_text response = Rejected e →
          generateLocal fetch nullReadMessage systemPrompt userPrompt settings
          = Rejected (Some (orElse e (lit "Failed to connect to Local LLM"))))
       ∧ (∀ e, ok response = true → resp_json response = Rejected e →
            generateLocal fetch nullReadMessage systemPrompt userPrompt settings
            = Rejected (Some (orElse e (lit "Failed to connect to Local LLM"))))
       ∧ (ok response = true → resp_json response = Resolved JNull →
          generateLocal fetch nullReadMessage systemPrompt userPrompt settings
          = Rejected (Some (orElse nullReadMessage (lit "Failed to connect to Local LLM"))))).
Proof.
  unfold generateLocal, generateLocal_try. split.
  - by intros e ->.
  - intros response ->. repeat split.
    + by intros e -> ->.
    + by intros e -> ->.
    + by intros -> ->.
Qed.

(** X20. When the local provider succeeds.  [generateLocal] resolves
    exactly when [fetch] resolves with a 2xx response whose body parses
    to a value other than [null]; whatever the shape of that value (an
    object without choices, an array, a string, a number), the result is
    then either a truthy value, the content of the first choice's
    message, or the empty string. *)
Theorem generateLocal_resolves_on_any_parsed_body
    (fetch : Request → Completion Response) (nullReadMessage : option jsstring)
    (systemPrompt userPrompt : jsstring) (settings : AppSettings) :
  (∀ v,
     generateLocal fetch nullReadMessage systemPrompt userPrompt settings = Resolved v →
     ∃ response data,
       fetch (localRequest systemPrompt userPrompt settings) = Resolved response
       ∧ ok response = true ∧ resp_json response = Resolved data ∧ data ≠ JNull
       ∧ (v = JString [] ∨ truthyJSON v = true))
  ∧ (∀ response data,
       fetch (localRequest systemPrompt userPrompt settings) = Resolved response →
       ok response = true → resp_json response = Resolved data → data ≠ JNull →
       ∃ v, generateLocal fetch nullReadMessage systemPrompt userPrompt settings = Resolved v
            ∧ (v = JString [] ∨ truthyJSON v = true)).
Proof.
  assert (Hor : ∀ x, orEmptyString x = JString [] ∨ truthyJSON (orEmptyString x) = true).
  { intros [v|]; simpl; [| by left]. destruct (truthyJSON v) eqn:Hv; [by right | by left]. }
  unfold generateLocal, generateLocal_try. split.
  - intros v. destruct (fetch _) as [response|e]; [| done].
    destruct (ok response) eqn:Hok; simpl.
    + destruct (resp_json response) as [data|e] eqn:Hjson; [| done].
      destruct data; simpl; try done;
        intros [= <-]; eexists _, _; (repeat split; [done.. |]);
        first [apply Hor | by left].
    + by destruct (resp_text response).
  - intros response data -> -> -> Hdata. simpl.
    destruct data; try done; simpl; eexists; (split; [done |]);
      first [apply Hor | by left].
Qed.

(** ** The settings modal *)

Lemma run_app es1 es2 p : run (es1 ++ es2) p = run es2 (run es1 p).
Proof. unfold run. apply foldl_app. Qed.

Lemma run_edits edits w d :
  run (EditSettings <$> edits) {| world := w; isSettingsOpen := true; modal_localSettings := d |}
  = {| world := w; isSettingsOpen := true;
       modal_localSettings := foldl (λ s e, handleChange e s) d edits |}.
Proof.
  revert d. induction edits as [|e edits IH]; intros d; [done |].
  rewrite fmap_cons. unfold run in *. simpl. apply IH.
Qed.

(** X21. The settings modal edits a draft.  From a page whose modal is
    closed, opening the modal, making any edits and cancelling leaves the
    page as it was, modal closed and draft equal to the settings of the
    page.  Saving instead replaces the settings of the page by the
    settings at opening with the edits applied in order, and changes
    nothing else: rows, headers, the call log and the pending calls,
    which keep the settings of their closure, are as before. *)
Theorem settings_modal_cancel_discards_save_applies
    (p : Page) (edits : list SettingsEdit) :
  isSettingsOpen p = false →
  run (OpenSettings :: (EditSettings <$> edits) ++ [CancelSettings]) p
    = syncDraft (world p) false
  ∧ run (OpenSettings :: (EditSettings <$> edits) ++ [ClickSave]) p
    = syncDraft
        (setSettings (foldl (λ s e, handleChange e s) (st_settings (world p)) edits)
           (world p))
        false
  ∧ st_rows (world (run (OpenSettings :: (EditSettings <$> edits) ++ [ClickSave]) p))
    = st_rows (world p)
  ∧ st_headers (world (run (OpenSettings :: (EditSettings <$> edits) ++ [ClickSave]) p))
    = st_headers (world p)
  ∧ calls (world (run (OpenSettings :: (EditSettings <$> edits) ++ [ClickSave]) p))
    = calls (world p)
  ∧ inflight (world (run (OpenSettings :: (EditSettings <$> edits) ++ [ClickSave]) p))
    = inflight (world p).
Proof.
  intros Hclosed.
  assert (Hopen : run [OpenSettings] p
                  = {| world := world p; isSettingsOpen := true;
                       modal_localSettings := st_settings (world p) |}).
  { unfold run. simpl. by rewrite Hclosed. }
  assert (Hcancel : run (OpenSettings :: (EditSettings <$> edits) ++ [CancelSettings]) p
                    = syncDraft (world p) false).
  { change (OpenSettings :: (EditSettings <$> edits) ++ [CancelSettings])
      with ([OpenSettings] ++ (EditSettings <$> edits) ++ [CancelSettings]).
    rewrite !run_app, Hopen. by rewrite run_edits. }
  assert (Hsave : run (OpenSettings :: (EditSettings <$> edits) ++ [ClickSave]) p
                  = syncDraft
                      (setSettings
                         (foldl (λ s e, handleChange e s) (st_settings (world p)) edits)
                         (world p)) false).
  { change (OpenSettings :: (EditSettings <$> edits) ++ [ClickSave])
      with ([OpenSettings] ++ (EditSettings <$> edits) ++ [ClickSave]).
    rewrite !run_app, Hopen. by rewrite run_edits. }
  split; [exact Hcancel |]. split; [exact Hsave |]. by rewrite Hsave.
Qed.


Lemma updateCell_commute r1 c1 u1 r2 c2 u2 rs :
  r1 ≠ r2 ∨ c1 ≠ c2 →
  updateCell r1 c1 u1 (updateCell r2 c2 u2 rs) = updateCell r2 c2 u2 (updateCell r1 c1 u1 rs).
Proof.
  intros Hne. unfold updateCell. rewrite <- !list_fmap_compose.
  apply list_fmap_ext. intros i row _. simpl.
  destruct (decide (row_id row ≠ r1)) as [H1 | H1];
    destruct (decide (row_id row ≠ r2)) as [H2 | H2]; simpl;
    rewrite ?(decide_True _ _ H1), ?(decide_True _ _ H2),
      ?(decide_False _ _ H1), ?(decide_False _ _ H2); try done.
  f_equal. apply list_alter_alter_ne.
  apply dec_stable in H1, H2. destruct Hne as [Hr | Hc]; [congruence | done].
Qed.

(** X22. Calls for different cells settle in any order.  Two pending
    calls whose targets are different cells, in columns without
    dependents, leave the same rows whichever settles first, with any
    outcomes. *)
Theorem settlements_of_different_cells_commute
    (a1 a2 : Activation) (o1 o2 : Settled) (w : World) :
  a_rowId a1 ≠ a_rowId a2 ∨ a_targetColIndex a1 ≠ a_targetColIndex a2 →
  dependents (headers (a_env a1)) (col_id (a_targetHeader a1)) = [] →
  dependents (headers (a_env a2)) (col_id (a_targetHeader a2)) = [] →
  st_rows (resume a2 o2 (resume a1 o1 w)) = st_rows (resume a1 o1 (resume a2 o2 w)).
Proof.
  intros Hne Hd1 Hd2.
  destruct o1 as [r1 | m1], o2 as [r2 | m2]; simpl; rewrite ?Hd1, ?Hd2; simpl;
    apply updateCell_commute; destruct Hne; auto.
Qed.

(** X23. An edited prompt is used by the next generation.  After
    [handleHeaderChange] sets the system prompt of a non-entry column, a
    generation of that column with a non-blank direct input, run from the
    new render, calls the adapter with the new prompt (pending calls keep
    the prompt of their own closure). *)
Theorem edited_prompt_is_used_next
    (w w' : World) (index : nat) (prompt rowId text : jsstring) (h : ColumnHeader) :
  handleHeaderChange index K_systemPrompt prompt w = Some w' →
  st_headers w !! index = Some h → isInput h = false → trim text ≠ [] →
  calls (executeGeneration (render w') rowId index (Some text) w')
  = calls w ++ [ {| call_systemPrompt := prompt; call_userPrompt := text;
                    call_settings := st_settings w |} ]
  ∧ inflight w' = inflight w.
Proof.
  intros Hw Hh Hin Ht. apply handleHeaderChange_Some in Hw as (h0 & h' & Hh0 & Hf & ->).
  assert (h0 = h) as -> by congruence. simpl in Hf.
  assert (h' = {| col_id := col_id h; label := label h; systemPrompt := prompt;
                  sourceColumnId := sourceColumnId h; isInput := isInput h |})
    as -> by congruence.
  split; [| done].
  rewrite (executeGeneration_direct _ rowId index text _
             {| col_id := col_id h; label := label h; systemPrompt := prompt;
                sourceColumnId := sourceColumnId h; isInput := isInput h |});
    [done | | done | done].
  simpl. apply list_lookup_insert_eq. by apply lookup_lt_Some in Hh.
Qed.


(** ** The further theorems at concrete inputs *)

Lemma commitCall_pending : inflight committed !! 0 = Some commitCall.
Proof. by vm_compute. Defined.

(** X2 on the default sheet: the call of column 1 resolves. *)
Lemma settle_is_local_on_default_sheet :
  inflight committed !! 0 = Some commitCall
  ∧ cellwise
      (generation_frame row0 (λ j, j = 1)
         (λ j, j = 1 ∨ j ∈ (dependents (headers (a_env commitCall))
                              (col_id (a_targetHeader commitCall))).*1))
      (st_rows committed) (st_rows (settle 0 (Resolved (lit "Short summary")) committed))
  ∧ st_headers (settle 0 (Resolved (lit "Short summary")) committed) = st_headers committed
  ∧ st_settings (settle 0 (Resolved (lit "Short summary")) committed) = st_settings committed.
Proof.
  split; [exact commitCall_pending |].
  exact (settle_is_local 0 (Resolved (lit "Short summary")) commitCall committed
           commitCall_pending).
Defined.

(** X3 on the default sheet: the settled call starts the call of column 2. *)
Lemma settle_continues_on_default_sheet :
  inflight (settle 0 (Resolved (lit "Short summary")) committed)
    = delete 0 (inflight committed) ++ spawned commitCall (Resolved (lit "Short summary"))
  ∧ a_targetColIndex <$> spawned commitCall (Resolved (lit "Short summary")) = [2].
Proof.
  split; [| by vm_compute].
  destruct (settle_continues_under_its_closure 0 (Resolved (lit "Short summary"))
              commitCall committed commitCall_pending) as (Hi & _).
  exact Hi.
Defined.

(** X4 on the default sheet: column 1 of the first row, from the typed text. *)
Lemma generation_lifecycle_on_default_sheet :
  cell_at 0 1 (executeGeneration (render typed) row0 1 (Some (lit "Long text...")) typed)
    = Some {| cell_id := lit "cell-0-1"; value := []; status := LOADING;
              errorMessage := None |}
  ∧ cell_at 0 1
      (settle (length (inflight typed)) (Resolved (lit "Short summary"))
         (executeGeneration (render typed) row0 1 (Some (lit "Long text...")) typed))
    = Some {| cell_id := lit "cell-0-1"; value := lit "Short summary"; status := SUCCESS;
              errorMessage := None |}.
Proof.
  destruct (generation_lifecycle (render typed) row0 1 (a_targetHeader summarizing)
              (Some (lit "Long text...")) (lit "Long text...") typed 0
              {| row_id := row0;
                 cells := [ {| cell_id := lit "cell-0-0"; value := lit "Long text...";
                               status := IDLE; errorMessage := None |};
                            idleCell (lit "cell-0-1"); idleCell (lit "cell-0-2") ] |}
              (idleCell (lit "cell-0-1")))
    as (Hloading & _ & Hsuccess);
    [reflexivity | reflexivity | reflexivity | by vm_compute | by vm_compute
    | by vm_compute | reflexivity |].
  split; [exact Hloading |]. apply Hsuccess. by vm_compute.
Defined.

(** X8 on the default sheet: the settlement of the first call. *)
Lemma entry_column_kept_on_default_sheet :
  ¬ edits_entry_column (CallSettles 0 (Resolved (lit "Short summary")))
  ∧ entry_values
      (world (react (CallSettles 0 (Resolved (lit "Short summary")))
                (run [ TypeInCell row0 0 (lit "Long text...");
                       LeaveCell row0 0 (lit "Long text...") ]
                   (initialPage (λ _, 1700000000000%N)))))
    = entry_values
        (world (run [ TypeInCell row0 0 (lit "Long text...");
                      LeaveCell row0 0 (lit "Long text...") ]
                  (initialPage (λ _, 1700000000000%N)))).
Proof.
  assert (He : ¬ edits_entry_column (CallSettles 0 (Resolved (lit "Short summary"))))
    by (intros []).
  split; [exact He |].
  exact (page_generation_never_writes_entry_column (λ _, 1700000000000%N)
           [ TypeInCell row0 0 (lit "Long text..."); LeaveCell row0 0 (lit "Long text...") ]
           (CallSettles 0 (Resolved (lit "Short summary"))) He).
Defined.

(** X9 on the sheet whose two columns are each other's source. *)
Lemma cycle_on_loop_sheet :
  ∃ a, a ∈ inflight (settleAll [ (0, Resolved (lit "Better"));
                                 (0, Resolved (lit "Too long"));
                                 (0, Resolved (lit "Shorter")) ] loopWorld)
       ∧ a_env a = render (handleCellChange (lit "row-1") 2 (lit "A first draft") loopSheet)
       ∧ (a_targetColIndex a = 1 ∨ a_targetColIndex a = 2)
       ∧ headers (render (handleCellChange (lit "row-1") 2 (lit "A first draft") loopSheet))
           !! a_targetColIndex a = Some (a_targetHeader a).
Proof.
  apply (cycle_never_comes_to_rest
           (render (handleCellChange (lit "row-1") 2 (lit "A first draft") loopSheet))
           (λ i, i = 1 ∨ i = 2)).
  - intros i [-> | ->].
    + eexists _, 2, _. split; [reflexivity |]. split; [by right |].
      split; [reflexivity |]. by split.
    + eexists _, 1, _. split; [reflexivity |]. split; [by left |].
      split; [reflexivity |]. by split.
  - eexists. split; [by left |]. split; [reflexivity |]. split; [by left | reflexivity].
  - repeat constructor; eexists; (split; [reflexivity | by vm_compute]).
Defined.

Lemma committed_chain_ready : Forall chain_ready (inflight committed).
Proof.
  assert (E : inflight committed = [commitCall]) by (by vm_compute). rewrite E.
  constructor; [| constructor]. split; [exact forward_initialHeaders | reflexivity].
Defined.

(** X10 on the default sheet: the two settlements of the default chain. *)
Lemma default_chain_comes_to_rest :
  effective [ (0, Resolved (lit "Short summary")); (0, Rejected None) ] committed
  ∧ length [ (0, Resolved (lit "Short summary")); (0, @Rejected jsstring None) ]
      ≤ pending_weight committed
  ∧ inflight (drain (λ _, Resolved (lit "ok")) (pending_weight committed) committed) = [].
Proof.
  assert (Heff : effective [ (0, Resolved (lit "Short summary")); (0, Rejected None) ]
                   committed).
  { simpl. repeat split; eexists; by vm_compute. }
  split; [exact Heff |].
  destruct (forward_sheet_comes_to_rest committed
              [ (0, Resolved (lit "Short summary")); (0, Rejected None) ]
              (λ _, Resolved (lit "ok")) committed_chain_ready Heff) as (Hlen & _ & Hrest).
  split; [exact Hlen | exact Hrest].
Defined.

(** X11 on the default sheet. *)
Lemma commit_on_default_sheet_comes_to_rest :
  inflight (drain (λ _, Resolved (lit "ok")) (2 ^ length (st_headers typed)) committed) = [].
Proof.
  exact (commit_on_forward_sheet_comes_to_rest typed row0 0 (lit "Long text...")
           (λ _, Resolved (lit "ok")) forward_initialHeaders eq_refl).
Defined.

(** X12 on the default sheet: column 1 is removed, column 2 named it. *)
Lemma removed_source_on_default_sheet :
  calls (regenerateCell row0 1 (removeColumn 1 sheet)) = calls sheet
  ∧ inflight (regenerateCell row0 1 (removeColumn 1 sheet)) = inflight sheet.
Proof.
  destruct (removed_source_fails_regeneration sheet 1 2 (a_targetHeader summarizing)
              translateHeader row0) as (_ & Hc & Hi);
    [apply (bool_decide_unpack (NoDup (col_id <$> st_headers sheet))); by vm_compute
    | done.. |].
  split; [exact Hc | exact Hi].
Defined.

(** X13 on the default sheet. *)
Lemma added_column_on_default_sheet :
  {| call_systemPrompt := lit "New system instruction...";
     call_userPrompt := lit "Bonjour";
     call_settings := initialSettings |}
  ∈ calls (handleCellBlur row0 2 (lit "Bonjour") (addColumn 1700000000005 sheet)).
Proof.
  exact (added_column_continues_the_chain sheet 1700000000005 translateHeader row0
           (lit "Bonjour") eq_refl ltac:(by vm_compute)).
Defined.

(** X14 on the default sheet: leaving a cell with three spaces, and
    leaving a cell of the last column. *)
Lemma idle_commits_on_default_sheet :
  handleCellBlur row0 0 (lit "   ") sheet = sheet
  ∧ handleCellBlur row0 2 (lit "Bonjour") sheet = sheet.
Proof.
  split.
  - apply idle_commit_changes_nothing. left. by vm_compute.
  - apply idle_commit_changes_nothing. right.
    intros cur h Hcur Hh Hsrc. simpl in Hcur. simplify_eq.
    apply list_elem_of_lookup in Hh as [i Hi].
    destruct i as [|[|[|i]]]; simpl in Hi; simplify_eq; by vm_compute in Hsrc.
Defined.

(** X15 on the default sheet: column 2 takes the entry column as source. *)
Lemma choosing_a_source_on_default_sheet :
  (dependents
     (st_headers (default sheet (handleHeaderChange 2 K_sourceColumnId (lit "col-0") sheet)))
     (lit "col-0")).*1 = [1; 2]
  ∧ ∀ j, j ∈ (dependents
                (st_headers
                   (setHeaders (λ prev, <[2 := {| col_id := lit "col-2";
                                                  label := lit "Step 2 Output";
                                                  systemPrompt :=
                                                    lit "Translate the summary to French.";
                                                  sourceColumnId := Some (lit "col-0");
                                                  isInput := false |}]> prev) sheet))
                (lit "col-1")).*1
         ↔ (j = 2 ∧ lit "col-1" = lit "col-0")
           ∨ (j ≠ 2 ∧ j ∈ (dependents (st_headers sheet) (lit "col-1")).*1).
Proof.
  split; [by vm_compute |].
  destruct (choosing_a_source_rewires_one_column sheet _ 2 (lit "col-0") eq_refl)
    as (Hdeps & _).
  exact (Hdeps (lit "col-1")).
Defined.

(** X16 on the default sheet: two calls for the same cell of column 2. *)
Lemma last_settlement_on_default_sheet :
  st_rows (resume (translating row0) (Resolved (lit "Bref"))
             (resume (translating row0) (Resolved (lit "Court")) sheet))
  = st_rows (resume (translating row0) (Resolved (lit "Bref")) sheet).
Proof.
  exact (proj1 (last_settlement_wins (translating row0) (translating row0)
                  (lit "Court") (lit "Bref") sheet eq_refl eq_refl eq_refl eq_refl)).
Defined.

(** X17 on the default sheet: the row is removed while its call is pending. *)
Lemma removed_row_on_default_sheet :
  st_rows (settle 0 (Resolved (lit "Short summary")) (removeRow row0 committed))
  = st_rows (removeRow row0 committed).
Proof.
  exact (proj2 (proj2 (settlement_for_removed_row_writes_nothing 0
                         (Resolved (lit "Short summary")) commitCall committed
                         commitCall_pending))).
Defined.

(** X22 on the default sheet: calls for column 2 of two rows. *)
Lemma different_cells_on_default_sheet :
  st_rows (resume (translating (lit "row-1700000000000-1")) (Rejected None)
             (resume (translating row0) (Resolved (lit "Bref")) sheet))
  = st_rows (resume (translating row0) (Resolved (lit "Bref"))
               (resume (translating (lit "row-1700000000000-1")) (Rejected None) sheet)).
Proof.
  apply (settlements_of_different_cells_commute (translating row0)
           (translating (lit "row-1700000000000-1"))).
  - left. by vm_compute.
  - reflexivity.
  - reflexivity.
Defined.

(** X23 on the default sheet: the prompt of column 1 is edited. *)
Lemma edited_prompt_on_default_sheet :
  calls (executeGeneration
           (render (default sheet (handleHeaderChange 1 K_systemPrompt (lit "Shorten.") sheet)))
           row0 1 (Some (lit "Long text..."))
           (default sheet (handleHeaderChange 1 K_systemPrompt (lit "Shorten.") sheet)))
  = calls sheet ++ [ {| call_systemPrompt := lit "Shorten.";
                        call_userPrompt := lit "Long text...";
                        call_settings := st_settings sheet |} ].
Proof.
  exact (proj1 (edited_prompt_is_used_next sheet _ 1 (lit "Shorten.") row0
                  (lit "Long text...") (a_targetHeader summarizing)
                  eq_refl eq_refl eq_refl ltac:(by vm_compute))).
Defined.

(** X21 on the initial page: the provider and the local model are edited. *)
Lemma settings_modal_on_initial_page :
  st_settings
    (world (run (OpenSettings
                   :: (EditSettings <$> [provider_is LOCAL; localModelName_is (lit "mistral")])
                   ++ [ClickSave])
              (initialPage (λ _, 1700000000000%N))))
  = {| provider := LOCAL; localBaseUrl := lit "http://localhost:11434";
       localModelName := lit "mistral"; geminiModelName := lit "gemini-2.5-flash" |}
  ∧ run (OpenSettings
           :: (EditSettings <$> [provider_is LOCAL; localModelName_is (lit "mistral")])
           ++ [CancelSettings])
      (initialPage (λ _, 1700000000000%N))
    = initialPage (λ _, 1700000000000%N).
Proof.
  destruct (settings_modal_cancel_discards_save_applies (initialPage (λ _, 1700000000000%N))
              [provider_is LOCAL; localModelName_is (lit "mistral")] eq_refl)
    as (Hcancel & Hsave & _).
  split; [by rewrite Hsave | exact Hcancel].
Defined.

(** X18 on the initial settings: the SDK answers, and the SDK fails
    without a message. *)
Lemma generateGemini_contract_examples :
  generateGemini (λ _, Resolved (Some (lit "Bonjour"))) None
    (lit "Translate.") (lit "hello") initialSettings
  = Resolved (lit "Bonjour")
  ∧ generateGemini (λ _, Rejected None) None (lit "Translate.") (lit "hello") initialSettings
    = Rejected (Some (lit "Failed to generate with Gemini")).
Proof.
  split.
  - destruct (generateGemini_contract (λ _, Resolved (Some (lit "Bonjour"))) None
                (lit "Translate.") (lit "hello") initialSettings) as (_ & _ & Hres & _).
    apply Hres. split; [reflexivity | by vm_compute].
  - destruct (generateGemini_contract (λ _, Rejected None) None
                (lit "Translate.") (lit "hello") initialSettings) as (_ & _ & _ & Hrej).
    exact (Hrej None eq_refl).
Defined.

(** X19 when the network is down, and when the body is [null]. *)
Lemma generateLocal_failures_examples :
  generateLocal (λ _, Rejected (Some (lit "Failed to fetch"))) None
    (lit "Summarize.") (lit "hello") localSettings
  = Rejected (Some (lit "Failed to fetch"))
  ∧ generateLocal
      (λ _, Resolved {| resp_status := 200; resp_text := Resolved (lit "null");
                        resp_json := Resolved JNull |})
      None (lit "Summarize.") (lit "hello") localSettings
    = Rejected (Some (lit "Failed to connect to Local LLM")).
Proof.
  split.
  - destruct (generateLocal_failures (λ _, Rejected (Some (lit "Failed to fetch"))) None
                (lit "Summarize.") (lit "hello") localSettings) as (Hfetch & _).
    exact (Hfetch _ eq_refl).
  - destruct (generateLocal_failures
                (λ _, Resolved {| resp_status := 200; resp_text := Resolved (lit "null");
                                  resp_json := Resolved JNull |})
                None (lit "Summarize.") (lit "hello") localSettings) as (_ & Hresp).
    destruct (Hresp _ eq_refl) as (_ & _ & Hnull).
    exact (Hnull eq_refl eq_refl).
Defined.

(** X20 on a body that is an array. *)
Lemma generateLocal_resolves_on_an_array_body :
  ∃ v, generateLocal
         (λ _, Resolved {| resp_status := 200; resp_text := Resolved (lit "[]");
                           resp_json := Resolved (JArray []) |})
         None (lit "Summarize.") (lit "hello") localSettings
       = Resolved v
       ∧ (v = JString [] ∨ truthyJSON v = true).
Proof.
  destruct (generateLocal_resolves_on_any_parsed_body
              (λ _, Resolved {| resp_status := 200; resp_text := Resolved (lit "[]");
                                resp_json := Resolved (JArray []) |})
              None (lit "Summarize.") (lit "hello") localSettings) as (_ & Hres).
  exact (Hres _ (JArray []) eq_refl eq_refl eq_refl ltac:(done)).
Defined.
